(** * scache: an in-memory cache with TTL expiry and LRU eviction

    Shallow embedding of [cache.go] (package [scache]) and the properties
    of its operations.  The cache couples a Go map from keys to
    [*list.Element] with a [container/list] doubly-linked list holding the
    entries from most recently used (front) to least recently used (back). *)

From Stdlib Require Import ZArith Lia.
From stdpp Require Import base gmap list strings.

(** ** Time

    [time.Time] readings are taken on one clock and are modelled as integer
    nanosecond counts, [time.Duration] as a signed nanosecond count.
    [t.Add(d)] is addition and [t.After(u)] is the strict order [u < t].
    Readings and durations are taken to lie far from the ends of the int64
    range, where the library's [Add] would saturate. *)

Abbreviation Time := Z.
Abbreviation Duration := Z.

Definition Add (t : Time) (d : Duration) : Time := (t + d)%Z.
Definition After (t u : Time) : bool := bool_decide (u < t)%Z.

(** ** container/list

    A [*list.Element] is a pointer: [addr] is its address and [Value] the
    payload stored at creation, which no code ever reassigns.  A list is the
    sequence of its elements from front to back.  [Remove] and [MoveToFront]
    act only on an element that belongs to the list ([e.list == l] in Go),
    which here is: an element of that address occurs in the sequence. *)

Module clist.
Section with_payload.
Context {A : Type}.

Record Element := mkElement { addr : nat; Value : A }.

Definition Len (l : list Element) : Z := Z.of_nat (length l).

Definition Back (l : list Element) : option Element := last l.

Definition Remove (e : Element) (l : list Element) : list Element :=
  filter (λ x, addr x ≠ addr e) l.

Definition PushFront (a : nat) (v : A) (l : list Element)
  : Element * list Element :=
  let e := mkElement a v in (e, e :: l).

Definition MoveToFront (e : Element) (l : list Element) : list Element :=
  if decide (addr e ∈ addr <$> l) then e :: Remove e l else l.
End with_payload.
Arguments Element : clear implicits.
End clist.

(** ** Data model *)

(** CacheItem stores the value and the expiry time of a cache entry. *)
Record CacheItem := { Value : string; ExpiryTime : Time }.

(** entry stores a cache item along with its key. *)
Record entry := { key : string; value : CacheItem }.

Inductive error := errors_New (msg : string).

(** The cache.  [items] and [eviction] are the two Go fields; [heap] counts
    the list elements allocated so far, so that the element created by the
    next [PushFront] has an address no earlier element has.  The mutex [mu]
    lives in the machine state of the concurrency model further down. *)
Record Cache := mkCache {
  items : gmap string (clist.Element entry);
  eviction : list (clist.Element entry);
  capacity : Z;
  heap : nat
}.

Definition expiry (e : clist.Element entry) : Time :=
  ExpiryTime (value (clist.Value e)).

(** ** Operations *)

Definition New (capacity : Z) : Cache :=
  {| items := ∅; eviction := []; capacity := capacity; heap := 0 |}.

(** The two statements executed on an element that leaves the cache:
    [c.eviction.Remove(elem); delete(c.items, key)]. *)
Definition drop (k : string) (elem : clist.Element entry) (c : Cache) : Cache :=
  {| items := delete k (items c);
     eviction := clist.Remove elem (eviction c);
     capacity := capacity c;
     heap := heap c |}.

Definition evictLRU (c : Cache) : Cache :=
  match clist.Back (eviction c) with
  | Some elem => let kv := clist.Value elem in drop (key kv) elem c
  | None => c
  end.

(** [Set] runs three statement groups in this order. *)
Definition Set_removeOld (k : string) (c : Cache) : Cache :=
  match items c !! k with
  | Some elem => drop k elem c
  | None => c
  end.

Definition Set_evict (c : Cache) : Cache :=
  if bool_decide (capacity c ≤ clist.Len (eviction c))%Z then evictLRU c else c.

Definition Set_insert (k v : string) (ttl : Duration) (now : Time) (c : Cache)
  : Cache :=
  let item := {| Value := v; ExpiryTime := Add now ttl |} in
  let '(elem, l) :=
    clist.PushFront (heap c) {| key := k; value := item |} (eviction c) in
  {| items := <[k := elem]> (items c);
     eviction := l;
     capacity := capacity c;
     heap := S (heap c) |}.

Definition Set_ (k v : string) (ttl : Duration) (now : Time) (c : Cache)
  : option error * Cache :=
  (None, Set_insert k v ttl now (Set_evict (Set_removeOld k c))).

Definition NotFound : error := errors_New "key not found".

Definition Get (k : string) (now : Time) (c : Cache)
  : (string * option error) * Cache :=
  match items c !! k with
  | None => ((EmptyString, Some NotFound), c)
  | Some elem =>
      if After now (expiry elem)
      then ((EmptyString, Some NotFound), drop k elem c)
      else ((Value (value (clist.Value elem)), None),
            {| items := items c;
               eviction := clist.MoveToFront elem (eviction c);
               capacity := capacity c;
               heap := heap c |})
  end.

Definition Contains (k : string) (now : Time) (c : Cache) : bool * Cache :=
  let '((_, err), c') := Get k now c in
  (match err with None => true | Some _ => false end, c').

(** [Flush] is two assignments, with no other statement around them. *)
Definition Flush_items (c : Cache) : Cache :=
  {| items := ∅; eviction := eviction c; capacity := capacity c; heap := heap c |}.

Definition Flush_eviction (c : Cache) : Cache :=
  {| items := items c; eviction := []; capacity := capacity c; heap := heap c |}.

Definition Flush (c : Cache) : option error * Cache :=
  (None, Flush_eviction (Flush_items c)).

(** One iteration of the [range c.items] loop of [evictExpiredItems]. *)
Definition sweep_body (now : Time) (c : Cache)
    (kv : string * clist.Element entry) : Cache :=
  if After now (expiry kv.2) then drop kv.1 kv.2 c else c.

(** Go leaves the iteration order of a map unspecified, so the loop is
    parameterised by the order in which the pairs are visited. *)
Definition evictExpiredItems_in (visit : list (string * clist.Element entry))
    (now : Time) (c : Cache) : Cache :=
  foldl (sweep_body now) c visit.

Definition evictExpiredItems (now : Time) (c : Cache) : Cache :=
  evictExpiredItems_in (map_to_list (items c)) now c.

(** ** Call sequences

    A call together with the clock reading it takes. *)

Inductive op :=
  | OpSet (k v : string) (ttl : Duration)
  | OpGet (k : string)
  | OpContains (k : string)
  | OpFlush
  | OpSweep.

Definition exec (o : op) (now : Time) (c : Cache) : Cache :=
  match o with
  | OpSet k v ttl => (Set_ k v ttl now c).2
  | OpGet k => (Get k now c).2
  | OpContains k => (Contains k now c).2
  | OpFlush => (Flush c).2
  | OpSweep => evictExpiredItems now c
  end.

(** The states the structure passes through strictly inside a call, between
    its statement groups. *)
Definition inside (o : op) (c : Cache) : list Cache :=
  match o with
  | OpSet k _ _ => [Set_removeOld k c; Set_evict (Set_removeOld k c)]
  | OpFlush => [Flush_items c]
  | _ => []
  end.

Definition run (calls : list (op * Time)) (c : Cache) : Cache :=
  foldl (λ c call, exec call.1 call.2 c) c calls.

(** Every state seen from [c] on: before each call, inside it, and at the end. *)
Fixpoint observed (calls : list (op * Time)) (c : Cache) : list Cache :=
  match calls with
  | [] => [c]
  | (o, now) :: rest => c :: inside o c ++ observed rest (exec o now c)
  end.

(** ** The mutex

    Each public method as the sequence of its lock operations and of the
    statement groups that touch [c.items] or [c.eviction], in source order;
    [defer c.mu.Unlock()] runs last. *)

Inductive action :=
  | Lock
  | Unlock
  | Touch (f : Cache → Cache).

Definition Set_actions (k v : string) (ttl : Duration) (now : Time) : list action :=
  [Lock; Touch (Set_removeOld k); Touch Set_evict; Touch (Set_insert k v ttl now);
   Unlock].

Definition Get_actions (k : string) (now : Time) : list action :=
  [Lock; Touch (λ c, (Get k now c).2); Unlock].

Definition Contains_actions (k : string) (now : Time) : list action :=
  Get_actions k now.

Definition Flush_actions : list action :=
  [Touch Flush_items; Touch Flush_eviction].

Definition evictExpiredItems_actions (now : Time) : list action :=
  [Lock; Touch (evictExpiredItems now); Unlock].

(** Does every [Touch] of the sequence run with the mutex held by the caller? *)
Fixpoint locked (held : bool) (p : list action) : bool :=
  match p with
  | [] => true
  | Lock :: p => locked true p
  | Unlock :: p => locked false p
  | Touch _ :: p => held && locked held p
  end.

(** Goroutines interleave at the granularity of actions.  [Lock] blocks
    while another goroutine holds the mutex; a [Touch] does not look at it. *)
Record machine := mkMachine {
  shared : Cache;
  mu : option nat;
  goroutines : list (list action)
}.

Definition sched (g : nat) (m : machine) : option machine :=
  match goroutines m !! g with
  | Some (a :: rest) =>
      let gs := <[g := rest]> (goroutines m) in
      match a with
      | Lock =>
          match mu m with
          | None => Some (mkMachine (shared m) (Some g) gs)
          | Some _ => None
          end
      | Unlock => Some (mkMachine (shared m) None gs)
      | Touch f => Some (mkMachine (f (shared m)) (mu m) gs)
      end
  | _ => None
  end.

Fixpoint schedule (order : list nat) (m : machine) : option machine :=
  match order with
  | [] => Some m
  | g :: order => m' ← sched g m; schedule order m'
  end.

(** A cache of capacity 1 holding key "a", on which one goroutine calls
    [Flush] while another calls [Set] with key "b". *)
Definition flush_race : machine :=
  mkMachine (Set_ "a" "1" 3600 0 (New 1)).2 None
    [Flush_actions; Set_actions "b" "2" 3600 1].

(** What an observer reads off a machine state: who holds the mutex, the
    size of the index, the length of the recency order, and how many
    actions each goroutine still has to run. *)
Definition observe (m : machine) : option nat * nat * nat * list nat :=
  (mu m, size (items (shared m)), length (eviction (shared m)),
   length <$> goroutines m).

(** ** Structural consistency of index and recency order *)

Record consistent (c : Cache) : Prop := {
  (* each key of the map references a list element storing that key *)
  cons_index : ∀ k e, items c !! k = Some e →
                 e ∈ eviction c ∧ key (clist.Value e) = k;
  (* each list element is the one the map holds for its key *)
  cons_order : ∀ e, e ∈ eviction c → items c !! key (clist.Value e) = Some e;
  (* each element occurs once *)
  cons_once : NoDup (clist.addr <$> eviction c);
  (* same number of entries on both sides *)
  cons_size : size (items c) = length (eviction c);
  (* every element was allocated before the next one will be *)
  cons_heap : ∀ e, e ∈ eviction c → clist.addr e < heap c
}.

(** Occupancy never above [n], on either side. *)
Definition within (n : Z) (c : Cache) : Prop :=
  (clist.Len (eviction c) ≤ n)%Z ∧ (Z.of_nat (size (items c)) ≤ n)%Z.

Definition expired (now : Time) (e : clist.Element entry) : Prop :=
  (expiry e < now)%Z.

#[global] Instance expired_dec now e : Decision (expired now e) :=
  decide (expiry e < now)%Z.

(** The keys of the recency order, front to back. *)
Definition order (c : Cache) : list string :=
  (λ e, key (clist.Value e)) <$> eviction c.

(** What every call maintains: consistency, the configured capacity, and
    an occupancy of at most the larger of the capacity and 1. *)
Definition settled (cap : Z) (c : Cache) : Prop :=
  consistent c ∧ capacity c = cap
  ∧ (clist.Len (eviction c) ≤ Z.max cap 1)%Z.

(** A [Set] call is given by key, value, ttl and clock reading; a [Get] call
    by key and clock reading. *)
Definition set_key (s : string * string * Duration * Time) : string := s.1.1.1.

Definition set_calls (ss : list (string * string * Duration * Time))
  : list (op * Time) :=
  (λ s, (OpSet s.1.1.1 s.1.1.2 s.1.2, s.2)) <$> ss.

Definition get_calls (gs : list (string * Time)) : list (op * Time) :=
  (λ g, (OpGet g.1, g.2)) <$> gs.

(** The element [Set] creates in a cache whose allocation count is [a]. *)
Definition fresh_elem (a : nat) (k v : string) (ttl : Duration) (now : Time)
  : clist.Element entry :=
  clist.mkElement a
    {| key := k; value := {| Value := v; ExpiryTime := Add now ttl |} |}.

(** The value and expiry time written by the last [Set] of key [k] among
    the calls, if there is one. *)
Definition last_set (k : string) (calls : list (op * Time))
  : option (string * Time) :=
  foldl (λ acc call,
           match call.1 with
           | OpSet k' v ttl =>
               if decide (k' = k) then Some (v, Add call.2 ttl) else acc
           | _ => acc
           end) None calls.

(** The goroutine started by [StartEvictionTicker] runs one
    [evictExpiredItems] pass per tick it receives; [readings] are the clock
    readings of the passes run so far, in order. *)
Definition StartEvictionTicker_passes (readings : list Time) (c : Cache)
  : Cache :=
  foldl (λ c now, evictExpiredItems now c) c readings.

(** A method that takes the mutex, runs its statement groups and releases
    the mutex on return. *)
Definition critical (fs : list (Cache → Cache)) : list action :=
  Lock :: (Touch <$> fs) ++ [Unlock].

Definition run_all (fs : list (Cache → Cache)) (c : Cache) : Cache :=
  foldl (λ c f, f c) c fs.

(** The action sequence of each call. *)
Definition op_actions (o : op) (now : Time) : list action :=
  match o with
  | OpSet k v ttl => Set_actions k v ttl now
  | OpGet k => Get_actions k now
  | OpContains k => Contains_actions k now
  | OpFlush => Flush_actions
  | OpSweep => evictExpiredItems_actions now
  end.

(** The entries of the cache in recency order, front to back, without the
    list elements that carry them. *)
Definition entries (c : Cache) : list entry := clist.Value <$> eviction c.

(** What a call returns to its caller. *)
Inductive reply :=
  | ReplyErr (err : option error)
  | ReplyGet (v : string) (err : option error)
  | ReplyBool (b : bool)
  | ReplyNone.

Definition respond (o : op) (now : Time) (c : Cache) : reply :=
  match o with
  | OpSet k v ttl => ReplyErr (Set_ k v ttl now c).1
  | OpGet k => ReplyGet (Get k now c).1.1 (Get k now c).1.2
  | OpContains k => ReplyBool (Contains k now c).1
  | OpFlush => ReplyErr (Flush c).1
  | OpSweep => ReplyNone
  end.

Fixpoint replies (calls : list (op * Time)) (c : Cache) : list reply :=
  match calls with
  | [] => []
  | (o, now) :: rest => respond o now c :: replies rest (exec o now c)
  end.

(** Two caches with the same entries in the same order and the same
    capacity. *)
Definition similar (c c' : Cache) : Prop :=
  consistent c ∧ consistent c'
  ∧ entries c = entries c' ∧ capacity c = capacity c'.

(** A full cache of capacity 2: "b" (expiring at 21) in front of "a"
    (expiring at 10). *)
Definition example_cache : Cache :=
  (Set_ "b" "2" 20 1 (Set_ "a" "1" 10 0 (New 2)).2).2.

(** The entries of [example_cache] again, carried by other list elements:
    the cache held "z" and was flushed before "a" and "b" were stored. *)
Definition example_cache_later : Cache :=
  (Set_ "b" "2" 20 1
     (Set_ "a" "1" 10 0 (Flush (Set_ "z" "0" 1 0 (New 2)).2).2).2).2.

(** * Proofs *)

(** ** Facts about the list operations *)

Section clist_facts.
Context {A : Type}.
Implicit Types (l : list (clist.Element A)) (e x y : clist.Element A).

Lemma elem_of_Remove e l x :
  x ∈ clist.Remove e l ↔ x ∈ l ∧ clist.addr x ≠ clist.addr e.
Proof. unfold clist.Remove. rewrite list_elem_of_filter. tauto. Qed.

Lemma Remove_length_le e l : length (clist.Remove e l) ≤ length l.
Proof. apply length_filter. Qed.

Lemma Remove_length_lt e l :
  e ∈ l → length (clist.Remove e l) < length l.
Proof. intros He. apply (length_filter_lt _ _ e); [done | tauto]. Qed.

Lemma Remove_absent e l :
  clist.addr e ∉ clist.addr <$> l → clist.Remove e l = l.
Proof.
  induction l as [|x l IH]; [done |]. rewrite fmap_cons, not_elem_of_cons.
  intros [Hx Hl]. unfold clist.Remove in *.
  rewrite filter_cons_True by congruence. by rewrite IH.
Qed.

Lemma Remove_split e l1 l2 :
  NoDup (clist.addr <$> (l1 ++ e :: l2)) →
  clist.Remove e (l1 ++ e :: l2) = l1 ++ l2.
Proof.
  rewrite fmap_app, fmap_cons. intros Hnd.
  apply NoDup_app in Hnd as (_ & Hdisj & [Hnot _]%NoDup_cons).
  unfold clist.Remove. rewrite filter_app, filter_cons_False by tauto.
  fold (clist.Remove e l1) (clist.Remove e l2).
  rewrite !Remove_absent; [done | done |].
  intros Hin. apply (Hdisj _ Hin). left.
Qed.

Lemma Remove_length e l :
  NoDup (clist.addr <$> l) → e ∈ l →
  length (clist.Remove e l) = pred (length l).
Proof.
  intros Hnd (l1 & l2 & ->)%list_elem_of_split.
  rewrite Remove_split by done. rewrite !length_app. simpl. lia.
Qed.

Lemma Remove_NoDup e l :
  NoDup (clist.addr <$> l) → NoDup (clist.addr <$> clist.Remove e l).
Proof.
  intros Hnd. eapply sublist_NoDup; [exact Hnd | apply fmap_sublist, sublist_filter].
Qed.

Lemma Remove_gone e l : clist.addr e ∉ clist.addr <$> clist.Remove e l.
Proof.
  intros (x & Hx & [_ Hne]%elem_of_Remove)%list_elem_of_fmap. congruence.
Qed.

Lemma Remove_back e l :
  NoDup (clist.addr <$> (l ++ [e])) → clist.Remove e (l ++ [e]) = l.
Proof. intros Hnd. rewrite Remove_split by done. apply app_nil_r. Qed.

Lemma addr_unique l x y :
  NoDup (clist.addr <$> l) → x ∈ l → y ∈ l →
  clist.addr x = clist.addr y → x = y.
Proof.
  intros Hnd Hx Hy Heq.
  apply (NoDup_fmap_1 clist.addr) in Hnd as Hnd'.
  apply list_elem_of_lookup in Hx as [i Hi].
  apply list_elem_of_lookup in Hy as [j Hj].
  assert (i = j) as ->; [| congruence].
  eapply NoDup_lookup; [exact Hnd | |].
  - rewrite list_lookup_fmap, Hi. reflexivity.
  - rewrite list_lookup_fmap, Hj. simpl. by rewrite Heq.
Qed.

Lemma MoveToFront_present e l :
  e ∈ l → clist.MoveToFront e l = e :: clist.Remove e l.
Proof.
  intros He. unfold clist.MoveToFront. rewrite decide_True; [done |].
  apply list_elem_of_fmap. eauto.
Qed.

Lemma Back_elem_of e l : clist.Back l = Some e → e ∈ l.
Proof. apply last_Some_elem_of. Qed.
End clist_facts.

(** ** Preservation of consistency, statement group by statement group *)

Lemma consistent_New cap : consistent (New cap).
Proof.
  split; simpl.
  - intros k e. by rewrite lookup_empty.
  - intros e. by rewrite elem_of_nil.
  - apply NoDup_nil_2.
  - apply map_size_empty.
  - intros e. by rewrite elem_of_nil.
Qed.

Lemma consistent_key_unique c x y :
  consistent c → x ∈ eviction c → y ∈ eviction c →
  key (clist.Value x) = key (clist.Value y) → x = y.
Proof.
  intros Hc Hx Hy Hk.
  apply (cons_order c Hc) in Hx, Hy. rewrite Hk in Hx. congruence.
Qed.

Lemma consistent_drop c k e :
  consistent c → items c !! k = Some e → consistent (drop k e c).
Proof.
  intros Hc Hk. destruct (cons_index c Hc k e Hk) as [He Hkey].
  split; simpl.
  - intros k' e' Hk'. apply lookup_delete_Some in Hk' as [Hne Hk'].
    destruct (cons_index c Hc k' e' Hk') as [He' Hkey'].
    split; [| done]. apply elem_of_Remove. split; [done |].
    intros Haddr. apply Hne.
    rewrite (addr_unique _ _ _ (cons_once c Hc) He' He Haddr) in Hkey'.
    congruence.
  - intros e' [He' Hne]%elem_of_Remove.
    rewrite lookup_delete_ne; [by apply (cons_order c Hc) |].
    intros Heq. apply Hne. f_equal. symmetry.
    apply (consistent_key_unique c); [done .. | congruence].
  - apply Remove_NoDup, (cons_once c Hc).
  - rewrite map_size_delete_Some by eauto.
    rewrite Remove_length by (done || apply (cons_once c Hc)).
    f_equal. apply (cons_size c Hc).
  - intros e' [He' _]%elem_of_Remove. by apply (cons_heap c Hc).
Qed.

Lemma consistent_evictLRU c : consistent c → consistent (evictLRU c).
Proof.
  intros Hc. unfold evictLRU.
  destruct (clist.Back (eviction c)) as [e|] eqn:Hback; [| done].
  apply consistent_drop; [done |].
  by apply (cons_order c Hc), Back_elem_of.
Qed.

Lemma consistent_Set_removeOld k c :
  consistent c → consistent (Set_removeOld k c).
Proof.
  intros Hc. unfold Set_removeOld.
  destruct (items c !! k) as [e|] eqn:Hk; [| done].
  by apply consistent_drop.
Qed.

Lemma Set_removeOld_absent k c : items (Set_removeOld k c) !! k = None.
Proof.
  unfold Set_removeOld. destruct (items c !! k) as [e|] eqn:Hk; [| done].
  apply lookup_delete_eq.
Qed.

Lemma consistent_Set_evict c : consistent c → consistent (Set_evict c).
Proof.
  intros Hc. unfold Set_evict. case_bool_decide; [| done].
  by apply consistent_evictLRU.
Qed.

Lemma evictLRU_absent k c :
  items c !! k = None → items (evictLRU c) !! k = None.
Proof.
  intros Hk. unfold evictLRU. destruct (clist.Back _); [| done].
  simpl. apply lookup_delete_None. by right.
Qed.

Lemma Set_evict_absent k c :
  items c !! k = None → items (Set_evict c) !! k = None.
Proof.
  intros Hk. unfold Set_evict. case_bool_decide; [| done].
  by apply evictLRU_absent.
Qed.

Lemma consistent_Set_insert k v ttl now c :
  consistent c → items c !! k = None →
  consistent (Set_insert k v ttl now c).
Proof.
  intros Hc Hk. split; simpl.
  - intros k' e'. destruct (decide (k = k')) as [<-|Hne].
    + rewrite lookup_insert_eq. intros [= <-]. split; [left | done].
    + rewrite lookup_insert_ne by done. intros Hk'.
      destruct (cons_index c Hc k' e' Hk'). split; [by right | done].
  - intros e' [->|He']%elem_of_cons; simpl.
    + apply lookup_insert_eq.
    + rewrite lookup_insert_ne; [by apply (cons_order c Hc) |].
      intros Heq. apply (cons_order c Hc) in He'. congruence.
  - apply NoDup_cons. split; [| apply (cons_once c Hc)].
    intros (x & Hx & Hin)%list_elem_of_fmap. simpl in Hx.
    apply (cons_heap c Hc) in Hin. lia.
  - rewrite map_size_insert_None by done. f_equal. apply (cons_size c Hc).
  - intros e' [->|He']%elem_of_cons; simpl; [lia |].
    apply (cons_heap c Hc) in He'. lia.
Qed.

Lemma consistent_Set k v ttl now c :
  consistent c → consistent (Set_ k v ttl now c).2.
Proof.
  intros Hc. simpl. apply consistent_Set_insert.
  - by apply consistent_Set_evict, consistent_Set_removeOld.
  - apply Set_evict_absent, Set_removeOld_absent.
Qed.

Lemma consistent_Get k now c : consistent c → consistent (Get k now c).2.
Proof.
  intros Hc. unfold Get.
  destruct (items c !! k) as [e|] eqn:Hk; [| done].
  destruct (After now (expiry e)); simpl; [by apply consistent_drop |].
  destruct (cons_index c Hc k e Hk) as [He Hkey].
  rewrite MoveToFront_present by done.
  split; simpl.
  - intros k' e' Hk'. destruct (cons_index c Hc k' e' Hk') as [He' Hkey'].
    split; [| done]. apply elem_of_cons.
    destruct (decide (clist.addr e' = clist.addr e)) as [Heq|Hne].
    + left. by apply (addr_unique (eviction c)); [apply (cons_once c Hc) | ..].
    + right. by apply elem_of_Remove.
  - intros e' [->|[He' _]%elem_of_Remove]%elem_of_cons;
      by apply (cons_order c Hc).
  - apply NoDup_cons. split; [apply Remove_gone |].
    apply Remove_NoDup, (cons_once c Hc).
  - rewrite Remove_length by (done || apply (cons_once c Hc)).
    rewrite (cons_size c Hc).
    apply list_elem_of_split in He as (l1 & l2 & ->).
    rewrite length_app. simpl. lia.
  - intros e' [->|[He' _]%elem_of_Remove]%elem_of_cons;
      by apply (cons_heap c Hc).
Qed.

Lemma consistent_Contains k now c :
  consistent c → consistent (Contains k now c).2.
Proof.
  intros Hc. unfold Contains.
  pose proof (consistent_Get k now c Hc) as H.
  by destruct (Get k now c) as [[s err] c'].
Qed.

Lemma consistent_Flush c : consistent (Flush c).2.
Proof.
  split; simpl.
  - intros k e. by rewrite lookup_empty.
  - intros e. by rewrite elem_of_nil.
  - apply NoDup_nil_2.
  - apply map_size_empty.
  - intros e. by rewrite elem_of_nil.
Qed.

(** ** The sweep loop *)

Lemma filter_ext_elem {A} (P Q : A → Prop)
    `{!∀ x, Decision (P x), !∀ x, Decision (Q x)} (l : list A) :
  (∀ x, x ∈ l → P x ↔ Q x) → filter P l = filter Q l.
Proof.
  induction l as [|a l IH]; intros Hext; [done |].
  rewrite !filter_cons, IH.
  - apply decide_ext, Hext. left.
  - intros x Hx. apply Hext. by right.
Qed.

Lemma filter_all_elem {A} (P : A → Prop) `{!∀ x, Decision (P x)} (l : list A) :
  (∀ x, x ∈ l → P x) → filter P l = l.
Proof.
  induction l as [|a l IH]; intros Hall; [done |].
  rewrite filter_cons_True by (apply Hall; left).
  f_equal. apply IH. intros x Hx. apply Hall. by right.
Qed.

Lemma After_expired now e : After now (expiry e) = true ↔ expired now e.
Proof. unfold After, expired. apply bool_decide_eq_true. Qed.

Lemma After_not_expired now e : After now (expiry e) = false ↔ ¬ expired now e.
Proof. unfold After, expired. apply bool_decide_eq_false. Qed.

Lemma Remove_by_key c k e :
  consistent c → items c !! k = Some e →
  clist.Remove e (eviction c)
  = filter (λ x, key (clist.Value x) ≠ k) (eviction c).
Proof.
  intros Hc Hk. destruct (cons_index c Hc k e Hk) as [He Hkey].
  apply filter_ext_elem. intros x Hx. split; intros Hne Heq; apply Hne.
  - f_equal. apply (consistent_key_unique c); [done .. | congruence].
  - rewrite (addr_unique _ _ _ (cons_once c Hc) Hx He Heq). done.
Qed.

Lemma sweep_fold now vs : ∀ c,
  consistent c → NoDup vs.*1 →
  (∀ k e, (k, e) ∈ vs → items c !! k = Some e) →
  let c' := evictExpiredItems_in vs now c in
  consistent c'
  ∧ eviction c'
    = filter (λ e, ¬ (expired now e ∧ key (clist.Value e) ∈ vs.*1)) (eviction c)
  ∧ items c'
    = filter (λ kv, ¬ (expired now kv.2 ∧ kv.1 ∈ vs.*1)) (items c)
  ∧ capacity c' = capacity c ∧ heap c' = heap c.
Proof.
  induction vs as [|[k0 e0] vs IH]; intros c Hc Hnd Hvs; cbv zeta.
  { split; [done |]. split; [| split; [| done]].
    - symmetry. apply filter_all_elem. intros x _ [_ []%elem_of_nil].
    - symmetry. apply map_filter_id. intros i x _ [_ []%elem_of_nil]. }
  rewrite fmap_cons in Hnd |- *. apply NoDup_cons in Hnd as [Hfresh Hnd].
  assert (items c !! k0 = Some e0) as Hk0 by (apply Hvs; left).
  change (evictExpiredItems_in ((k0, e0) :: vs) now c)
    with (evictExpiredItems_in vs now
            (if After now (expiry e0) then drop k0 e0 c else c)).
  change ((k0, e0).1) with k0.
  destruct (After now (expiry e0)) eqn:Hexp.
  - apply After_expired in Hexp.
    destruct (IH (drop k0 e0 c)) as (Hc' & Hev & Hit & Hcap & Hheap).
    + by apply consistent_drop.
    + done.
    + intros k e Hin. simpl. rewrite lookup_delete_ne; [apply Hvs; by right |].
      intros ->. apply Hfresh, list_elem_of_fmap. by exists (k, e).
    + split; [done |]. split; [| split; [| done]].
      * rewrite Hev. change (eviction (drop k0 e0 c))
          with (clist.Remove e0 (eviction c)).
        rewrite (Remove_by_key c k0 e0) by done.
        rewrite list_filter_filter. apply filter_ext_elem.
        intros x Hx. rewrite elem_of_cons. split.
        -- intros [Hn Hne] [Hx' [Heq|Hin]]; [done | by apply Hn].
        -- intros Hn. split; [intros [? ?]; apply Hn; by auto |].
           intros Heq. apply Hn. split; [| by left].
           apply (cons_order c Hc) in Hx. rewrite Heq in Hx. congruence.
      * rewrite Hit. change (items (drop k0 e0 c)) with (delete k0 (items c)).
        apply map_filter_strong_ext_1. intros i x. simpl.
        rewrite lookup_delete_Some, elem_of_cons. split.
        -- intros [Hn [Hne Hi]]. split; [| done].
           intros [Hx' [Heq|Hin]]; [done | by apply Hn].
        -- intros [Hn Hi]. split; [intros [? ?]; apply Hn; by auto |].
           split; [| done]. intros <-. apply Hn. split; [| by left].
           congruence.
  - apply After_not_expired in Hexp.
    destruct (IH c) as (Hc' & Hev & Hit & Hcap & Hheap); [done | done | |].
    { intros k e Hin. apply Hvs. by right. }
    split; [done |]. split; [| split; [| done]].
    + rewrite Hev.
      apply filter_ext_elem. intros x Hx. rewrite elem_of_cons. split.
      * intros Hn [Hx' [Heq|Hin]]; [| by apply Hn].
        apply (cons_order c Hc) in Hx. rewrite Heq in Hx. congruence.
      * intros Hn [? ?]. apply Hn. by auto.
    + rewrite Hit.
      apply map_filter_ext. intros i x Hi. simpl. rewrite elem_of_cons. split.
      * intros Hn [Hx' [Heq|Hin]]; [| by apply Hn]. congruence.
      * intros Hn [? ?]. apply Hn. by auto.
Qed.

Lemma sweep_in_spec now vs c :
  consistent c → vs ≡ₚ map_to_list (items c) →
  let c' := evictExpiredItems_in vs now c in
  consistent c'
  ∧ eviction c' = filter (λ e, ¬ expired now e) (eviction c)
  ∧ items c' = filter (λ kv, ¬ expired now kv.2) (items c)
  ∧ capacity c' = capacity c ∧ heap c' = heap c.
Proof.
  intros Hc Hperm.
  destruct (sweep_fold now vs c) as (Hc' & Hev & Hit & Hrest); [done | | |].
  { rewrite Hperm. apply NoDup_fst_map_to_list. }
  { intros k e Hin. rewrite Hperm in Hin. by apply elem_of_map_to_list. }
  assert (∀ k e, items c !! k = Some e → k ∈ vs.*1) as Hall.
  { intros k e Hk. apply list_elem_of_fmap. exists (k, e). split; [done |].
    rewrite Hperm. by apply elem_of_map_to_list. }
  split; [done |]. split; [| split; [| done]].
  - rewrite Hev. apply filter_ext_elem. intros x Hx. split.
    + intros Hn ?. apply Hn. split; [done |].
      apply (Hall _ x). by apply (cons_order c Hc).
    + tauto.
  - rewrite Hit. apply map_filter_ext. intros i x Hi. simpl. split.
    + intros Hn ?. apply Hn. split; [done |]. by apply (Hall _ x).
    + tauto.
Qed.

Lemma consistent_evictExpiredItems now c :
  consistent c → consistent (evictExpiredItems now c).
Proof. intros Hc. by apply (sweep_in_spec now _ c). Qed.

(** ** Occupancy *)

Lemma capacity_Set_removeOld k c : capacity (Set_removeOld k c) = capacity c.
Proof. unfold Set_removeOld. by destruct (items c !! k). Qed.

Lemma capacity_evictLRU c : capacity (evictLRU c) = capacity c.
Proof. unfold evictLRU. by destruct (clist.Back (eviction c)). Qed.

Lemma capacity_Set_evict c : capacity (Set_evict c) = capacity c.
Proof. unfold Set_evict. case_bool_decide; [apply capacity_evictLRU | done]. Qed.

Lemma capacity_Get k now c : capacity (Get k now c).2 = capacity c.
Proof.
  unfold Get. destruct (items c !! k) as [e|]; [| done].
  by destruct (After now (expiry e)).
Qed.

Lemma Contains_state k now c : (Contains k now c).2 = (Get k now c).2.
Proof. unfold Contains. by destruct (Get k now c) as [[s err] c']. Qed.

Lemma length_Set_removeOld k c :
  length (eviction (Set_removeOld k c)) ≤ length (eviction c).
Proof.
  unfold Set_removeOld. destruct (items c !! k); [| done].
  apply Remove_length_le.
Qed.

Lemma length_evictLRU c :
  length (eviction (evictLRU c)) ≤ pred (length (eviction c)).
Proof.
  unfold evictLRU. destruct (clist.Back (eviction c)) as [e|] eqn:Hback.
  - apply Back_elem_of in Hback. simpl.
    pose proof (Remove_length_lt e _ Hback). lia.
  - apply last_None in Hback. by rewrite Hback.
Qed.

(** After the capacity check there is room for the entry about to be
    pushed. *)
Lemma Set_evict_room n c :
  (1 ≤ n)%Z → (capacity c ≤ n)%Z → (clist.Len (eviction c) ≤ n)%Z →
  (clist.Len (eviction (Set_evict c)) ≤ n - 1)%Z.
Proof.
  unfold Set_evict, clist.Len. intros Hn Hcap Hlen.
  case_bool_decide as Hfull.
  - pose proof (length_evictLRU c). lia.
  - lia.
Qed.

Lemma length_MoveToFront {A} (e : clist.Element A) l :
  length (clist.MoveToFront e l) ≤ length l.
Proof.
  unfold clist.MoveToFront. case_decide as Hin; [| done].
  apply list_elem_of_fmap in Hin as (x & Hx & Hin). simpl.
  assert (length (clist.Remove e l) < length l); [| lia].
  apply (length_filter_lt _ _ x); [done |]. intros Hne. by apply Hne.
Qed.

Lemma length_Get k now c :
  length (eviction (Get k now c).2) ≤ length (eviction c).
Proof.
  unfold Get. destruct (items c !! k) as [e|]; [| done].
  destruct (After now (expiry e)); simpl.
  - apply Remove_length_le.
  - apply length_MoveToFront.
Qed.

Lemma consistent_within n c :
  consistent c → (clist.Len (eviction c) ≤ n)%Z → within n c.
Proof.
  intros Hc Hlen. split; [done |]. by rewrite (cons_size c Hc).
Qed.

Lemma settled_New cap : settled cap (New cap).
Proof.
  split; [apply consistent_New |]. split; [done |].
  unfold clist.Len. simpl. lia.
Qed.

Lemma settled_exec cap o now c : settled cap c → settled cap (exec o now c).
Proof.
  intros (Hc & Hcap & Hlen). unfold clist.Len in Hlen.
  destruct o as [k v ttl|k|k| |]; simpl exec.
  - split; [by apply consistent_Set |]. split.
    + simpl. by rewrite capacity_Set_evict, capacity_Set_removeOld.
    + pose proof (length_Set_removeOld k c) as Hrm.
      pose proof (Set_evict_room (Z.max cap 1) (Set_removeOld k c)) as Hroom.
      rewrite capacity_Set_removeOld in Hroom. unfold clist.Len in *.
      simpl. lia.
  - split; [by apply consistent_Get |]. split.
    + by rewrite capacity_Get.
    + pose proof (length_Get k now c). unfold clist.Len. lia.
  - rewrite Contains_state. split; [by apply consistent_Get |]. split.
    + by rewrite capacity_Get.
    + pose proof (length_Get k now c). unfold clist.Len. lia.
  - split; [apply consistent_Flush |]. split; [done |].
    unfold clist.Len. simpl. lia.
  - destruct (sweep_in_spec now (map_to_list (items c)) c)
      as (Hc' & Hev & _ & Hcap' & _); [done | done |].
    split; [done |]. split; [by rewrite <- Hcap |].
    unfold evictExpiredItems, clist.Len. rewrite Hev.
    pose proof (length_filter (λ e, ¬ expired now e) (eviction c)). lia.
Qed.

Lemma settled_run cap calls : ∀ c, settled cap c → settled cap (run calls c).
Proof.
  induction calls as [|[o now] calls IH]; intros c Hs; [done |].
  apply IH. by apply settled_exec.
Qed.

Lemma settled_within cap c : settled cap c → within (Z.max cap 1) c.
Proof. intros (Hc & _ & Hlen). by apply consistent_within. Qed.

Lemma inside_within cap o c :
  settled cap c → Forall (within (Z.max cap 1)) (inside o c).
Proof.
  intros (Hc & Hcap & Hlen). unfold clist.Len in Hlen.
  destruct o as [k v ttl|k|k| |]; simpl; try apply Forall_nil_2.
  - apply Forall_cons_2; [| apply Forall_cons_2; [| apply Forall_nil_2]].
    + apply consistent_within; [by apply consistent_Set_removeOld |].
      pose proof (length_Set_removeOld k c). unfold clist.Len. lia.
    + apply consistent_within;
        [by apply consistent_Set_evict, consistent_Set_removeOld |].
      pose proof (length_Set_removeOld k c) as Hrm.
      pose proof (Set_evict_room (Z.max cap 1) (Set_removeOld k c)) as Hroom.
      rewrite capacity_Set_removeOld in Hroom. unfold clist.Len in *. lia.
  - apply Forall_cons_2; [| apply Forall_nil_2].
    split; [done |]. simpl. rewrite map_size_empty. lia.
Qed.

Lemma observed_within cap calls : ∀ c,
  settled cap c → Forall (within (Z.max cap 1)) (observed calls c).
Proof.
  induction calls as [|[o now] calls IH]; intros c Hs; simpl.
  - constructor; [by apply settled_within | constructor].
  - constructor; [by apply settled_within |].
    apply Forall_app. split; [by apply inside_within |].
    by apply IH, settled_exec.
Qed.

(** ** The recency order seen through its keys *)

Lemma elem_of_order c k :
  k ∈ order c ↔ ∃ e, e ∈ eviction c ∧ key (clist.Value e) = k.
Proof.
  unfold order. rewrite list_elem_of_fmap.
  split; [intros (e & -> & He) | intros (e & He & <-)]; eauto.
Qed.

Lemma lookup_order c k :
  consistent c → is_Some (items c !! k) ↔ k ∈ order c.
Proof.
  intros Hc. rewrite elem_of_order. split.
  - intros [e He]. exists e. by apply (cons_index c Hc).
  - intros (e & He & <-). exists e. by apply (cons_order c Hc).
Qed.

Lemma lookup_None_order c k :
  consistent c → k ∉ order c → items c !! k = None.
Proof.
  intros Hc Hk. apply eq_None_not_Some. by rewrite lookup_order.
Qed.

Lemma dom_items c : consistent c → dom (items c) = list_to_set (order c).
Proof.
  intros Hc. apply set_eq. intros k.
  by rewrite elem_of_dom, elem_of_list_to_set, lookup_order.
Qed.

Lemma NoDup_order c : consistent c → NoDup (order c).
Proof.
  intros Hc. unfold order. apply NoDup_fmap_2_strong.
  - intros x y Hx Hy. by apply (consistent_key_unique c).
  - apply (NoDup_fmap_1 clist.addr), (cons_once c Hc).
Qed.

Lemma Set_insert_eq k v ttl now c :
  Set_insert k v ttl now c
  = {| items := <[k := fresh_elem (heap c) k v ttl now]> (items c);
       eviction := fresh_elem (heap c) k v ttl now :: eviction c;
       capacity := capacity c;
       heap := S (heap c) |}.
Proof. reflexivity. Qed.

Lemma Set_absent_room k v ttl now c :
  items c !! k = None → (clist.Len (eviction c) < capacity c)%Z →
  (Set_ k v ttl now c).2 = Set_insert k v ttl now c.
Proof.
  intros Hk Hroom. simpl. unfold Set_removeOld. rewrite Hk.
  unfold Set_evict. by rewrite bool_decide_eq_false_2 by lia.
Qed.

Lemma Set_absent_full k v ttl now c :
  items c !! k = None → (capacity c ≤ clist.Len (eviction c))%Z →
  (Set_ k v ttl now c).2 = Set_insert k v ttl now (evictLRU c).
Proof.
  intros Hk Hfull. simpl. unfold Set_removeOld. rewrite Hk.
  unfold Set_evict. by rewrite bool_decide_eq_true_2 by lia.
Qed.

Lemma evictLRU_back c l e :
  eviction c = l ++ [e] → evictLRU c = drop (key (clist.Value e)) e c.
Proof.
  intros Hev. unfold evictLRU, clist.Back. by rewrite Hev, last_snoc.
Qed.

Lemma Get_hit k now c e :
  consistent c → items c !! k = Some e → ¬ expired now e →
  Get k now c
  = ((Value (value (clist.Value e)), None),
     {| items := items c;
        eviction := e :: clist.Remove e (eviction c);
        capacity := capacity c;
        heap := heap c |}).
Proof.
  intros Hc Hk Hexp. unfold Get. rewrite Hk.
  apply After_not_expired in Hexp. rewrite Hexp.
  rewrite MoveToFront_present; [done |]. by apply (cons_index c Hc k).
Qed.

Lemma order_drop c k e :
  consistent c → items c !! k = Some e →
  order (drop k e c) = filter (λ x, x ≠ k) (order c).
Proof.
  intros Hc Hk. unfold order. simpl. rewrite (Remove_by_key c k e) by done.
  induction (eviction c) as [|x l IH]; [done |].
  rewrite fmap_cons, !filter_cons. simpl.
  destruct (decide (key (clist.Value x) ≠ k)); [rewrite fmap_cons |];
    by rewrite IH.
Qed.

Lemma order_Get_hit k now c e :
  consistent c → items c !! k = Some e → ¬ expired now e →
  order (Get k now c).2 = k :: filter (λ x, x ≠ k) (order c).
Proof.
  intros Hc Hk Hexp. rewrite (Get_hit k now c e) by done.
  destruct (cons_index c Hc k e Hk) as [_ Hkey].
  transitivity (key (clist.Value e) :: order (drop k e c)); [done |].
  by rewrite (order_drop c k e), Hkey.
Qed.

(** ** The read-all-but-the-oldest scenario *)

Section scenario.
Variable T : Time.

(** No entry expires before [T]. *)
Let fresh_until (c : Cache) : Prop :=
  Forall (λ e, (T ≤ expiry e)%Z) (eviction c).

Lemma run_set_calls_room ss : ∀ c,
  consistent c →
  NoDup (set_key <$> ss) →
  (∀ k, k ∈ set_key <$> ss → k ∉ order c) →
  (Z.of_nat (length (eviction c) + length ss) ≤ capacity c)%Z →
  Forall (λ s, (T ≤ Add s.2 s.1.2)%Z) ss →
  fresh_until c →
  let c' := run (set_calls ss) c in
  consistent c' ∧ order c' = reverse (set_key <$> ss) ++ order c
  ∧ capacity c' = capacity c ∧ fresh_until c'.
Proof.
  induction ss as [|[[[k v] ttl] now] ss IH];
    intros c Hc Hnd Hnew Hroom Httl Hfresh; cbv zeta.
  { done. }
  rewrite fmap_cons in Hnd, Hnew. apply NoDup_cons in Hnd as [Hk Hnd].
  apply Forall_cons in Httl as [Hnow Httl]. simpl in Hnow, Hroom.
  change (run (set_calls ((k, v, ttl, now) :: ss)) c)
    with (run (set_calls ss) (Set_ k v ttl now c).2).
  assert (items c !! k = None) as Habs.
  { apply lookup_None_order; [done |]. apply Hnew. left. }
  pose proof (consistent_Set k v ttl now c Hc) as Hc1.
  rewrite Set_absent_room in Hc1 |- * by (done || unfold clist.Len; lia).
  destruct (IH (Set_insert k v ttl now c)) as (Hc' & Hord & Hcap & Hfr).
  - done.
  - done.
  - intros k' Hk'. unfold order. simpl. rewrite not_elem_of_cons.
    split; [by intros -> |]. apply Hnew. by right.
  - simpl. lia.
  - done.
  - apply Forall_cons. split; [done | exact Hfresh].
  - split; [done |]. split; [| done].
    rewrite Hord, fmap_cons, reverse_cons, <- app_assoc. done.
Qed.

Lemma run_get_calls_keep_back gs k0 : ∀ c l,
  consistent c →
  order c = l ++ [k0] →
  Forall (λ g, g.1 ∈ l ∧ (g.2 ≤ T)%Z) gs →
  fresh_until c →
  let c' := run (get_calls gs) c in
  consistent c' ∧ capacity c' = capacity c
  ∧ length (eviction c') = length (eviction c)
  ∧ (∃ l', order c' = l' ++ [k0] ∧ ∀ x, x ∈ l' ↔ x ∈ l)
  ∧ fresh_until c'.
Proof.
  induction gs as [|[k now] gs IH]; intros c l Hc Hord Hgs Hfresh; cbv zeta.
  { do 3 (split; [done |]). split; [by exists l | done]. }
  apply Forall_cons in Hgs as [[Hk Hnow] Hgs]. simpl in Hk, Hnow.
  change (run (get_calls ((k, now) :: gs)) c)
    with (run (get_calls gs) (Get k now c).2).
  assert (k ∈ order c) as Hin by (rewrite Hord, elem_of_app; by left).
  apply (lookup_order c k Hc) in Hin as [e He].
  destruct (cons_index c Hc k e He) as [Hev Hkey].
  assert (¬ expired now e) as Hexp.
  { unfold fresh_until in Hfresh. rewrite Forall_forall in Hfresh.
    specialize (Hfresh e Hev). unfold expired. lia. }
  pose proof (NoDup_order c Hc) as Hnd. rewrite Hord in Hnd.
  apply NoDup_app in Hnd as (Hndl & Hdisj & _).
  assert (k ≠ k0) as Hne.
  { intros ->. apply (Hdisj k0 Hk). left. }
  pose proof (consistent_Get k now c Hc) as Hc1.
  pose proof (order_Get_hit k now c e Hc He Hexp) as Hord1.
  rewrite Hord, filter_app, (filter_cons_True _ k0) in Hord1 by done.
  destruct (IH (Get k now c).2 (k :: filter (λ x, x ≠ k) l))
    as (Hc' & Hcap & Hlen & (l' & Hord' & Hl') & Hfr).
  - done.
  - by rewrite Hord1.
  - eapply Forall_impl; [exact Hgs |]. intros g [Hg Ht]. split; [| done].
    rewrite elem_of_cons, list_elem_of_filter.
    destruct (decide (g.1 = k)); [by left | by right].
  - rewrite (Get_hit k now c e) by done. simpl.
    apply Forall_cons. unfold fresh_until in Hfresh.
    rewrite Forall_forall in Hfresh. split; [by apply Hfresh |].
    apply Forall_forall. intros x [Hx _]%elem_of_Remove. by apply Hfresh.
  - split; [done |]. split; [by rewrite Hcap, capacity_Get |].
    split; [| split; [| done]].
    + rewrite Hlen, <- (cons_size _ Hc1), <- (cons_size c Hc).
      by rewrite (Get_hit k now c e).
    + exists l'. split; [done |]. intros x. rewrite Hl'.
      rewrite elem_of_cons, list_elem_of_filter. split.
      * intros [-> | [_ Hx]]; done.
      * intros Hx. destruct (decide (x = k)); [by left | by right].
Qed.
End scenario.

Lemma consistent_example : consistent example_cache.
Proof. apply consistent_Set, consistent_Set, consistent_New. Qed.

Lemma eviction_example :
  eviction example_cache
  = [fresh_elem 1 "b" "2" 20 1] ++ [fresh_elem 0 "a" "1" 10 0].
Proof. reflexivity. Qed.

(** * The properties *)

(** C1 as stated does not hold: a cache built with capacity 0 holds one
    entry after its first [Set], which is more than its capacity. *)
Lemma capacity_zero_overfull :
  ¬ within (capacity (Set_ "a" "1" 3600 0 (New 0)).2)
           (Set_ "a" "1" 3600 0 (New 0)).2.
Proof. intros [Hlen _]. vm_compute in Hlen. by apply Hlen. Qed.

(** C1 (amended).  Whatever calls are made on a cache built by
    [New capacity], at every observation point (before and after each call,
    and between the statement groups of [Set] and [Flush]) the recency order
    and the index each hold at most max(capacity, 1) entries: at most
    [capacity] when the capacity is positive, at most one otherwise. *)
Theorem occupancy_bounded cap calls :
  Forall (within (Z.max cap 1)) (observed calls (New cap)).
Proof. apply observed_within, settled_New. Qed.

(** C10.  Each of [Set], [Get], [Contains], [Flush], [evictLRU] and
    [evictExpiredItems] (in whatever order the map is iterated) takes a
    consistent cache to a consistent cache: map keys reference list
    elements storing that key, each element occurs once and is the one the
    map holds, and the map's size equals the list's length. *)
Theorem operations_preserve_consistency c :
  consistent c →
  (∀ k v ttl now, consistent (Set_ k v ttl now c).2)
  ∧ (∀ k now, consistent (Get k now c).2)
  ∧ (∀ k now, consistent (Contains k now c).2)
  ∧ consistent (Flush c).2
  ∧ consistent (evictLRU c)
  ∧ (∀ now, consistent (evictExpiredItems now c))
  ∧ (∀ now vs, vs ≡ₚ map_to_list (items c) →
       consistent (evictExpiredItems_in vs now c)).
Proof.
  intros Hc. split; [| split; [| split; [| split; [| split; [| split]]]]].
  - intros. by apply consistent_Set.
  - intros. by apply consistent_Get.
  - intros. by apply consistent_Contains.
  - apply consistent_Flush.
  - by apply consistent_evictLRU.
  - intros. by apply consistent_evictExpiredItems.
  - intros now vs Hvs. by apply (sweep_in_spec now vs c).
Qed.

(** C7.  One sweep pass, whatever the iteration order of the map, removes
    from the index and from the recency order exactly the entries whose
    expiry time lies before the clock reading of the sweep, and leaves the
    others in place, in their order. *)
Theorem sweep_removes_exactly_expired now vs c :
  consistent c → vs ≡ₚ map_to_list (items c) →
  eviction (evictExpiredItems_in vs now c)
    = filter (λ e, ¬ expired now e) (eviction c)
  ∧ items (evictExpiredItems_in vs now c)
    = filter (λ kv, ¬ expired now kv.2) (items c)
  ∧ (∀ k e, items c !! k = Some e → expired now e →
       items (evictExpiredItems_in vs now c) !! k = None
       ∧ e ∉ eviction (evictExpiredItems_in vs now c))
  ∧ (∀ k e, items c !! k = Some e → ¬ expired now e →
       items (evictExpiredItems_in vs now c) !! k = Some e
       ∧ e ∈ eviction (evictExpiredItems_in vs now c)).
Proof.
  intros Hc Hvs.
  destruct (sweep_in_spec now vs c Hc Hvs) as (_ & Hev & Hit & _).
  rewrite Hev, Hit. split; [done |]. split; [done |]. split.
  - intros k e Hk Hexp. split.
    + apply map_lookup_filter_None. right. intros x Hx. simpl.
      rewrite Hk in Hx. injection Hx as <-. tauto.
    + rewrite list_elem_of_filter. tauto.
  - intros k e Hk Hexp. split.
    + by apply map_lookup_filter_Some.
    + rewrite list_elem_of_filter. split; [done |].
      by apply (cons_index c Hc k).
Qed.

(** C8.  [Contains] reports true exactly when [Get] succeeds and leaves the
    cache in the state [Get] leaves it in: promoted to the front on a valid
    hit, removed on an expired hit, unchanged on a miss. *)
Theorem Contains_as_Get k now c :
  (Contains k now c).2 = (Get k now c).2
  ∧ ((Contains k now c).1 = true ↔ (Get k now c).1.2 = None)
  ∧ (∀ e, items c !! k = Some e → ¬ expired now e →
       Contains k now c
       = (true, {| items := items c;
                   eviction := clist.MoveToFront e (eviction c);
                   capacity := capacity c;
                   heap := heap c |}))
  ∧ (∀ e, items c !! k = Some e → expired now e →
       Contains k now c = (false, drop k e c))
  ∧ (items c !! k = None → Contains k now c = (false, c)).
Proof.
  split; [apply Contains_state |]. split; [| split; [| split]].
  - unfold Contains. destruct (Get k now c) as [[s [err|]] c']; simpl.
    + split; [done |]. intros [=].
    + done.
  - intros e Hk Hexp%After_not_expired. unfold Contains, Get.
    by rewrite Hk, Hexp.
  - intros e Hk Hexp%After_expired. unfold Contains, Get.
    by rewrite Hk, Hexp.
  - intros Hk. unfold Contains, Get. by rewrite Hk.
Qed.

(** C5 as stated does not hold: an entry read at the very instant of its
    expiry time is still returned. *)
Lemma Get_at_expiry_instant_found :
  ¬ ((Get "a" 5 (Set_ "a" "1" 5 0 (New 1)).2).1.2 = Some NotFound
     ↔ items (Set_ "a" "1" 5 0 (New 1)).2 !! "a" = None
       ∨ ∃ e, items (Set_ "a" "1" 5 0 (New 1)).2 !! "a" = Some e
              ∧ (expiry e ≤ 5)%Z).
Proof.
  intros [_ Hclaim].
  assert ((Get "a" 5 (Set_ "a" "1" 5 0 (New 1)).2).1.2 = Some NotFound)
    as Hget; [| by vm_compute in Hget].
  apply Hclaim. right. eexists. split; [reflexivity |]. by vm_compute.
Qed.

(** C5 (amended).  [Get] returns the NotFound error if and only if the key
    is absent from the index or the clock reading is strictly after the
    entry's expiry time; NotFound is its only error; in the expired case the
    entry is removed from the index and from the recency order; otherwise
    the stored value is returned. *)
Theorem Get_NotFound_iff k now c :
  ((Get k now c).1.2 = Some NotFound
   ↔ items c !! k = None ∨ ∃ e, items c !! k = Some e ∧ expired now e)
  ∧ ((Get k now c).1.2 = None
     ∨ (Get k now c).1 = (EmptyString, Some NotFound))
  ∧ (∀ e, items c !! k = Some e → expired now e →
       (Get k now c).2 = drop k e c
       ∧ items (Get k now c).2 !! k = None
       ∧ clist.addr e ∉ clist.addr <$> eviction (Get k now c).2)
  ∧ (∀ e, items c !! k = Some e → ¬ expired now e →
       (Get k now c).1 = (Value (value (clist.Value e)), None)).
Proof.
  unfold Get. destruct (items c !! k) as [e|] eqn:Hk.
  - destruct (After now (expiry e)) eqn:Hexp; simpl.
    + apply After_expired in Hexp.
      split; [split; [intros _; right; by exists e | done] |].
      split; [by right |]. split.
      * intros ? [= <-] _. split; [done |].
        split; [apply lookup_delete_eq | apply Remove_gone].
      * intros ? [= <-] Hn. done.
    + apply After_not_expired in Hexp. split; [| split; [by left | split]].
      * split; [done |]. intros [[=] | (e' & [= <-] & He')]. done.
      * intros ? [= <-] He. done.
      * by intros ? [= <-] _.
  - simpl. split; [split; [by left | done] |]. split; [by right |].
    split; by intros ? [=].
Qed.

(** C4 as stated does not hold: at an elapsed time equal to the ttl the
    entry is still returned, and so is a zero-ttl entry read at the instant
    it was stored. *)
Lemma Get_at_ttl_boundary_found :
  (Get "k" 1000 (Set_ "k" "v" 1000 0 (New 1)).2).1 = ("v", None)
  ∧ (Get "k" 7 (Set_ "k" "v" 0 7 (New 1)).2).1 = ("v", None).
Proof. split; reflexivity. Qed.

(** C4 (amended).  With expiryTime = set-time + ttl, a [Get] following
    [Set k v ttl] returns NotFound when its clock reading is strictly after
    expiryTime (elapsed time > ttl) and returns [v] when it is at or before
    it (elapsed time <= ttl).  A negative ttl therefore gives NotFound at
    any reading not before the set-time, and a zero ttl at any reading
    strictly after it. *)
Theorem Set_then_Get_ttl k v ttl t_set t_get c :
  ((Add t_set ttl < t_get)%Z →
     (Get k t_get (Set_ k v ttl t_set c).2).1 = (EmptyString, Some NotFound))
  ∧ ((t_get ≤ Add t_set ttl)%Z →
     (Get k t_get (Set_ k v ttl t_set c).2).1 = (v, None))
  ∧ ((ttl < 0)%Z → (t_set ≤ t_get)%Z →
     (Get k t_get (Set_ k v ttl t_set c).2).1 = (EmptyString, Some NotFound))
  ∧ (ttl = 0%Z → (t_set < t_get)%Z →
     (Get k t_get (Set_ k v ttl t_set c).2).1 = (EmptyString, Some NotFound)).
Proof.
  assert (∀ b, After t_get (Add t_set ttl) = b →
    (Get k t_get (Set_ k v ttl t_set c).2).1
    = if b then (EmptyString, Some NotFound) else (v, None)) as Hget.
  { intros b Hb. unfold Get. simpl. rewrite lookup_insert_eq.
    unfold expiry. simpl. rewrite Hb. by destruct b. }
  unfold After, Add in Hget.
  split; [| split; [| split]]; unfold Add; intros.
  - by rewrite (Hget true) by (apply bool_decide_eq_true; lia).
  - by rewrite (Hget false) by (apply bool_decide_eq_false; lia).
  - by rewrite (Hget true) by (apply bool_decide_eq_true; lia).
  - by rewrite (Hget true) by (apply bool_decide_eq_true; lia).
Qed.

(** ** Overwriting a resident key *)

Lemma Set_overwrite k old v ttl now c :
  consistent c → items c !! k = Some old →
  (clist.Len (eviction c) ≤ capacity c)%Z →
  (Set_ k v ttl now c).2
  = {| items := <[k := fresh_elem (heap c) k v ttl now]> (items c);
       eviction := fresh_elem (heap c) k v ttl now
                   :: clist.Remove old (eviction c);
       capacity := capacity c;
       heap := S (heap c) |}.
Proof.
  intros Hc Hk Hlen. destruct (cons_index c Hc k old Hk) as [Hold _].
  pose proof (Remove_length_lt old _ Hold) as Hlt.
  unfold Set_, Set_removeOld. rewrite Hk. unfold Set_evict.
  rewrite bool_decide_eq_false_2
    by (unfold clist.Len in *; simpl; lia).
  rewrite Set_insert_eq. simpl. by rewrite insert_delete_eq.
Qed.

(** C6.  On a cache holding key [k] whose occupancy is within capacity (in
    particular a full one), [Set k v2 ttl] takes the old element of [k] out
    of the recency order and pushes the new one at the front; every other
    key keeps its entry and its relative position, the number of entries is
    unchanged, and a [Get k] made no later than the new expiry time returns
    [v2]. *)
Theorem overwrite_keeps_others k old v2 ttl now c :
  consistent c → items c !! k = Some old →
  (clist.Len (eviction c) ≤ capacity c)%Z →
  eviction (Set_ k v2 ttl now c).2
    = fresh_elem (heap c) k v2 ttl now :: clist.Remove old (eviction c)
  ∧ order (Set_ k v2 ttl now c).2 = k :: filter (λ x, x ≠ k) (order c)
  ∧ items (Set_ k v2 ttl now c).2
    = <[k := fresh_elem (heap c) k v2 ttl now]> (items c)
  ∧ (∀ k', k' ≠ k → items (Set_ k v2 ttl now c).2 !! k' = items c !! k')
  ∧ size (items (Set_ k v2 ttl now c).2) = size (items c)
  ∧ (∀ now', (now' ≤ Add now ttl)%Z →
       (Get k now' (Set_ k v2 ttl now c).2).1 = (v2, None)).
Proof.
  intros Hc Hk Hlen. rewrite (Set_overwrite k old) by done. simpl.
  split; [done |]. split; [| split; [done | split; [| split]]].
  - transitivity (k :: order (drop k old c)); [done |].
    by rewrite (order_drop c k old).
  - intros k' Hne. by rewrite lookup_insert_ne.
  - apply map_size_insert_Some. by exists old.
  - intros now' Hnow. unfold Get. simpl. rewrite lookup_insert_eq.
    unfold After, expiry. simpl.
    by rewrite bool_decide_eq_false_2 by (unfold Add in *; lia).
Qed.

(** ** Caches of capacity zero or less *)

Lemma heap_Set_removeOld k c : heap (Set_removeOld k c) = heap c.
Proof. unfold Set_removeOld. by destruct (items c !! k). Qed.

Lemma heap_evictLRU c : heap (evictLRU c) = heap c.
Proof. unfold evictLRU. by destruct (clist.Back (eviction c)). Qed.

Lemma evictLRU_empty c : eviction c = [] → evictLRU c = c.
Proof. intros Hev. unfold evictLRU. by rewrite Hev. Qed.

(** C9.  On a cache built with capacity <= 0, after any calls, [Set]
    returns no error and always takes the eviction branch; the cache then
    holds the new entry and nothing else, the entry resident before, if
    any, having been evicted first.  [evictLRU] on an empty recency order
    changes nothing. *)
Theorem nonpositive_capacity_Set cap calls k v ttl now :
  (cap ≤ 0)%Z →
  (Set_ k v ttl now (run calls (New cap))).1 = None
  ∧ (Set_ k v ttl now (run calls (New cap))).2
    = Set_insert k v ttl now
        (evictLRU (Set_removeOld k (run calls (New cap))))
  ∧ eviction (Set_ k v ttl now (run calls (New cap))).2
    = [fresh_elem (heap (run calls (New cap))) k v ttl now]
  ∧ items (Set_ k v ttl now (run calls (New cap))).2
    = {[ k := fresh_elem (heap (run calls (New cap))) k v ttl now ]}
  ∧ (∀ c, eviction c = [] → evictLRU c = c).
Proof.
  intros Hcap.
  destruct (settled_run cap calls (New cap) (settled_New cap))
    as (Hc & Hcapc & Hlen).
  set (c := run calls (New cap)) in *.
  assert (Set_evict (Set_removeOld k c) = evictLRU (Set_removeOld k c)) as Hev.
  { unfold Set_evict. rewrite capacity_Set_removeOld.
    by rewrite bool_decide_eq_true_2 by (unfold clist.Len; lia). }
  pose proof (consistent_evictLRU _ (consistent_Set_removeOld k c Hc)) as Hc2.
  assert (eviction (evictLRU (Set_removeOld k c)) = []) as Hnil.
  { apply length_zero_iff_nil.
    pose proof (length_evictLRU (Set_removeOld k c)).
    pose proof (length_Set_removeOld k c). unfold clist.Len in Hlen. lia. }
  assert (items (evictLRU (Set_removeOld k c)) = ∅) as Hemp.
  { apply map_size_empty_inv. by rewrite (cons_size _ Hc2), Hnil. }
  split; [done |]. unfold Set_. simpl snd. rewrite Hev.
  split; [done |]. rewrite Set_insert_eq. simpl.
  rewrite Hnil, Hemp, heap_evictLRU, heap_Set_removeOld.
  split; [done |]. split; [apply insert_empty | apply evictLRU_empty].
Qed.

(** ** Least-recently-used eviction *)

Lemma evictLRU_exact c l e :
  consistent c → eviction c = l ++ [e] →
  eviction (evictLRU c) = l
  ∧ items (evictLRU c) = delete (key (clist.Value e)) (items c)
  ∧ size (items (evictLRU c)) = pred (size (items c)).
Proof.
  intros Hc Hev. rewrite (evictLRU_back c l e Hev). simpl.
  pose proof (cons_once c Hc) as Hnd. rewrite Hev in Hnd |- *.
  split; [by apply Remove_back |]. split; [done |].
  apply map_size_delete_Some. exists e. apply (cons_order c Hc).
  rewrite Hev, elem_of_app. right. left.
Qed.

(** The state reached by storing [first :: rest] in a cache of exactly that
    capacity and then reading keys of [rest] only. *)
Lemma scenario_before_last T first rest gs :
  NoDup (set_key <$> first :: rest) →
  Forall (λ s, (T ≤ Add s.2 s.1.2)%Z) (first :: rest) →
  Forall (λ g, g.1 ∈ set_key <$> rest ∧ (g.2 ≤ T)%Z) gs →
  ∃ l',
    consistent (run (set_calls (first :: rest) ++ get_calls gs)
                  (New (Z.of_nat (length (first :: rest)))))
    ∧ capacity (run (set_calls (first :: rest) ++ get_calls gs)
                  (New (Z.of_nat (length (first :: rest)))))
      = Z.of_nat (length (first :: rest))
    ∧ length (eviction (run (set_calls (first :: rest) ++ get_calls gs)
                          (New (Z.of_nat (length (first :: rest))))))
      = length (first :: rest)
    ∧ order (run (set_calls (first :: rest) ++ get_calls gs)
               (New (Z.of_nat (length (first :: rest)))))
      = l' ++ [set_key first]
    ∧ ∀ x, x ∈ l' ↔ x ∈ set_key <$> rest.
Proof.
  intros Hnd Httl Hgs.
  set (C := Z.of_nat (length (first :: rest))).
  unfold run. rewrite foldl_app. fold (run (set_calls (first :: rest)) (New C)).
  fold (run (get_calls gs) (run (set_calls (first :: rest)) (New C))).
  destruct (run_set_calls_room T (first :: rest) (New C))
    as (Hc1 & Hord1 & Hcap1 & Hfr1).
  { apply consistent_New. }
  { done. }
  { intros k _. unfold order. simpl. apply not_elem_of_nil. }
  { subst C. simpl. lia. }
  { done. }
  { simpl. apply Forall_nil_2. }
  change (order (New C)) with (@nil string) in Hord1.
  rewrite app_nil_r, fmap_cons, reverse_cons in Hord1.
  destruct (run_get_calls_keep_back T gs (set_key first)
              (run (set_calls (first :: rest)) (New C))
              (reverse (set_key <$> rest)))
    as (Hc2 & Hcap2 & Hlen2 & (l' & Hord2 & Hl') & _).
  { done. }
  { done. }
  { eapply Forall_impl; [exact Hgs |]. intros g [Hg Ht].
    split; [by apply elem_of_reverse | done]. }
  { done. }
  exists l'. split; [done |]. split; [by rewrite Hcap2, Hcap1 |].
  split; [| split; [done |]].
  - rewrite Hlen2.
    transitivity (length (order (run (set_calls (first :: rest)) (New C)))).
    { unfold order. by rewrite length_fmap. }
    rewrite Hord1, length_app, length_reverse, length_fmap. simpl. lia.
  - intros x. rewrite Hl'. apply elem_of_reverse.
Qed.

(** C2.  Store [first :: rest], distinct keys, in a cache whose capacity is
    their number; read keys of [rest] only (all of them or fewer, in any
    order, any number of times) while no entry has expired; then store a
    key not stored before.  The cache then holds the new key and the keys of
    [rest], and not the key of [first].  In general [evictLRU] on a
    non-empty recency order removes exactly its back element, from both
    structures, without looking at any expiry time. *)
Theorem lru_evicts_unread_oldest T first rest gs knew vnew ttlnew tnew c l e :
  NoDup (set_key <$> first :: rest) →
  Forall (λ s, (T ≤ Add s.2 s.1.2)%Z) (first :: rest) →
  Forall (λ g, g.1 ∈ set_key <$> rest ∧ (g.2 ≤ T)%Z) gs →
  knew ∉ set_key <$> first :: rest →
  consistent c → eviction c = l ++ [e] →
  dom (items (run (set_calls (first :: rest) ++ get_calls gs)
                (New (Z.of_nat (length (first :: rest))))))
    = list_to_set (set_key <$> first :: rest)
  ∧ dom (items (Set_ knew vnew ttlnew tnew
                  (run (set_calls (first :: rest) ++ get_calls gs)
                     (New (Z.of_nat (length (first :: rest)))))).2)
    = {[ knew ]} ∪ list_to_set (set_key <$> rest)
  ∧ (set_key first
     ∉ dom (items (Set_ knew vnew ttlnew tnew
                     (run (set_calls (first :: rest) ++ get_calls gs)
                        (New (Z.of_nat (length (first :: rest)))))).2))
  ∧ eviction (evictLRU c) = l
  ∧ items (evictLRU c) = delete (key (clist.Value e)) (items c)
  ∧ size (items (evictLRU c)) = pred (size (items c)).
Proof.
  intros Hnd Httl Hgs Hnew Hc Hev.
  destruct (scenario_before_last T first rest gs Hnd Httl Hgs)
    as (l' & Hc2 & Hcap2 & Hlen2 & Hord2 & Hl').
  set (c2 := run (set_calls (first :: rest) ++ get_calls gs)
               (New (Z.of_nat (length (first :: rest))))) in *.
  rewrite fmap_cons in Hnd, Hnew.
  apply NoDup_cons in Hnd as [Hfirst _].
  apply not_elem_of_cons in Hnew as [Hnew1 Hnew2].
  assert (dom (items c2) = list_to_set (set_key <$> first :: rest)) as Hdom.
  { rewrite (dom_items c2 Hc2), Hord2. apply set_eq. intros x.
    rewrite !elem_of_list_to_set, fmap_cons, elem_of_app, Hl'.
    rewrite !elem_of_cons, elem_of_nil. tauto. }
  assert (set_key first ∉ l') as Hback.
  { by rewrite Hl'. }
  assert (items c2 !! knew = None) as Habs.
  { apply lookup_None_order; [done |]. rewrite Hord2, elem_of_app, Hl'.
    rewrite elem_of_cons, elem_of_nil. tauto. }
  assert (∃ ev e0, eviction c2 = ev ++ [e0]
                   ∧ key (clist.Value e0) = set_key first) as (ev & e0 & Hev2 & Hk0).
  { unfold order in Hord2. apply fmap_app_inv in Hord2 as (ev & tl & _ & Htl & ->).
    destruct tl as [|e0 [|? ?]]; simplify_eq/=. by exists ev, e0. }
  assert (dom (items (Set_ knew vnew ttlnew tnew c2).2)
          = {[ knew ]} ∪ list_to_set (set_key <$> rest)) as Hdom'.
  { rewrite Set_absent_full by (done || unfold clist.Len; lia).
    rewrite (evictLRU_back c2 ev e0 Hev2), Set_insert_eq. simpl.
    rewrite dom_insert_L, dom_delete_L, Hdom, Hk0. apply set_eq. intros x.
    rewrite !elem_of_union, elem_of_difference, !elem_of_list_to_set.
    rewrite fmap_cons, elem_of_cons, !elem_of_singleton.
    split; [tauto |]. intros [-> | Hx]; [by left | right].
    split; [by right |]. by intros ->. }
  split; [done |]. split; [done |]. split.
  - rewrite Hdom', elem_of_union, elem_of_singleton, elem_of_list_to_set.
    intros [Heq | Hin]; [by apply Hnew1 | done].
  - by apply evictLRU_exact.
Qed.

(** ** The mutex *)

(** C3.  [Set], [Get], [Contains] and [evictExpiredItems] touch the index
    and the recency order only while holding the mutex; [Flush] touches both
    without ever taking it.  Hence a [Set] that holds the mutex can run
    between the two assignments of a concurrent [Flush]: it sees an empty
    index next to a recency order that still has its entry, and once both
    calls have returned the index holds key "b" (which [Contains] reports)
    while the recency order is empty, a state that neither order of the two
    calls produces. *)
Theorem Flush_runs_unlocked :
  locked false Flush_actions = false
  ∧ (∀ k v ttl now, locked false (Set_actions k v ttl now) = true)
  ∧ (∀ k now, locked false (Get_actions k now) = true)
  ∧ (∀ k now, locked false (Contains_actions k now) = true)
  ∧ (∀ now, locked false (evictExpiredItems_actions now) = true)
  ∧ observe <$> schedule [0; 1] flush_race = Some (Some 1, 0, 1, [1; 4])
  ∧ observe <$> schedule [0; 1; 1; 1; 1; 1; 0] flush_race
    = Some (None, 1, 0, [0; 0])
  ∧ (λ m, (Contains "b" 2 (shared m)).1)
      <$> schedule [0; 1; 1; 1; 1; 1; 0] flush_race = Some true
  ∧ observe <$> schedule [0; 0; 1; 1; 1; 1; 1] flush_race
    = Some (None, 1, 1, [0; 0])
  ∧ observe <$> schedule [1; 1; 1; 1; 1; 0; 0] flush_race
    = Some (None, 0, 0, [0; 0]).
Proof.
  split; [done |]. split; [done |]. split; [done |]. split; [done |].
  split; [done |]. repeat split; vm_compute; reflexivity.
Qed.

(** * Instances on concrete caches *)

(** C10 on the example cache. *)
Lemma operations_preserve_consistency_witness :
  consistent example_cache
  ∧ consistent (Set_ "c" "3" 30 2 example_cache).2
  ∧ consistent (Get "a" 5 example_cache).2
  ∧ consistent (Contains "a" 15 example_cache).2
  ∧ consistent (Flush example_cache).2
  ∧ consistent (evictLRU example_cache)
  ∧ consistent (evictExpiredItems 15 example_cache).
Proof.
  destruct (operations_preserve_consistency example_cache consistent_example)
    as (HSet & HGet & HContains & HFlush & HLRU & HSweep & _).
  split; [apply consistent_example |].
  split; [apply HSet |]. split; [apply HGet |]. split; [apply HContains |].
  split; [apply HFlush |]. split; [apply HLRU | apply HSweep].
Defined.

(** C7 on the example cache, swept at time 15: "a" goes, "b" stays. *)
Lemma sweep_removes_exactly_expired_witness :
  consistent example_cache
  ∧ map_to_list (items example_cache) ≡ₚ map_to_list (items example_cache)
  ∧ eviction (evictExpiredItems 15 example_cache)
    = filter (λ e, ¬ expired 15 e) (eviction example_cache)
  ∧ eviction (evictExpiredItems 15 example_cache)
    = [fresh_elem 1 "b" "2" 20 1]
  ∧ items (evictExpiredItems 15 example_cache) !! "a" = None
  ∧ items (evictExpiredItems 15 example_cache) !! "b"
    = Some (fresh_elem 1 "b" "2" 20 1).
Proof.
  destruct (sweep_removes_exactly_expired 15
              (map_to_list (items example_cache)) example_cache)
    as (Hev & Hit & Hgone & Hkept);
    [apply consistent_example | reflexivity |].
  split; [apply consistent_example |]. split; [reflexivity |].
  split; [exact Hev |]. split; [reflexivity |]. split.
  - apply (Hgone "a" (fresh_elem 0 "a" "1" 10 0)); [reflexivity |].
    unfold expired, expiry. simpl. unfold Add. lia.
  - apply (Hkept "b" (fresh_elem 1 "b" "2" 20 1)); [reflexivity |].
    unfold expired, expiry. simpl. unfold Add. lia.
Defined.

(** C8 on the example cache: a valid hit, an expired hit and a miss. *)
Lemma Contains_as_Get_witness :
  items example_cache !! "a" = Some (fresh_elem 0 "a" "1" 10 0)
  ∧ ¬ expired 5 (fresh_elem 0 "a" "1" 10 0)
  ∧ expired 15 (fresh_elem 0 "a" "1" 10 0)
  ∧ items example_cache !! "z" = None
  ∧ (Contains "a" 5 example_cache).1 = true
  ∧ eviction (Contains "a" 5 example_cache).2
    = [fresh_elem 0 "a" "1" 10 0; fresh_elem 1 "b" "2" 20 1]
  ∧ Contains "a" 15 example_cache
    = (false, drop "a" (fresh_elem 0 "a" "1" 10 0) example_cache)
  ∧ Contains "z" 5 example_cache = (false, example_cache).
Proof.
  assert (¬ expired 5 (fresh_elem 0 "a" "1" 10 0)) as Hfresh
    by (unfold expired, expiry; simpl; unfold Add; lia).
  assert (expired 15 (fresh_elem 0 "a" "1" 10 0)) as Hstale
    by (unfold expired, expiry; simpl; unfold Add; lia).
  destruct (Contains_as_Get "a" 5 example_cache) as (_ & _ & Hhit & _ & _).
  destruct (Contains_as_Get "a" 15 example_cache) as (_ & _ & _ & Hexp & _).
  destruct (Contains_as_Get "z" 5 example_cache) as (_ & _ & _ & _ & Hmiss).
  split; [reflexivity |]. split; [exact Hfresh |]. split; [exact Hstale |].
  split; [reflexivity |].
  rewrite (Hhit (fresh_elem 0 "a" "1" 10 0) eq_refl Hfresh).
  split; [reflexivity |]. split; [reflexivity |].
  split; [exact (Hexp _ eq_refl Hstale) | exact (Hmiss eq_refl)].
Defined.

(** C5 on the example cache: "a" read after and at its expiry time. *)
Lemma Get_NotFound_iff_witness :
  items example_cache !! "a" = Some (fresh_elem 0 "a" "1" 10 0)
  ∧ expired 15 (fresh_elem 0 "a" "1" 10 0)
  ∧ ¬ expired 10 (fresh_elem 0 "a" "1" 10 0)
  ∧ (Get "a" 15 example_cache).1.2 = Some NotFound
  ∧ items (Get "a" 15 example_cache).2 !! "a" = None
  ∧ (Get "a" 10 example_cache).1 = ("1", None).
Proof.
  assert (expired 15 (fresh_elem 0 "a" "1" 10 0)) as Hstale
    by (unfold expired, expiry; simpl; unfold Add; lia).
  assert (¬ expired 10 (fresh_elem 0 "a" "1" 10 0)) as Hfresh
    by (unfold expired, expiry; simpl; unfold Add; lia).
  destruct (Get_NotFound_iff "a" 15 example_cache)
    as ([_ Hiff] & _ & Hgone & _).
  destruct (Get_NotFound_iff "a" 10 example_cache) as (_ & _ & _ & Hval).
  split; [reflexivity |]. split; [exact Hstale |]. split; [exact Hfresh |].
  split; [| split].
  - apply Hiff. right. exists (fresh_elem 0 "a" "1" 10 0).
    split; [reflexivity | exact Hstale].
  - apply (Hgone _ eq_refl Hstale).
  - apply (Hval _ eq_refl Hfresh).
Defined.

(** C4 at ttl 1000 (read at 1001 and at 1000), ttl -1 and ttl 0. *)
Lemma Set_then_Get_ttl_witness :
  (Add 0 1000 < 1001)%Z
  ∧ (Get "k" 1001 (Set_ "k" "v" 1000 0 example_cache).2).1
    = (EmptyString, Some NotFound)
  ∧ (1000 ≤ Add 0 1000)%Z
  ∧ (Get "k" 1000 (Set_ "k" "v" 1000 0 example_cache).2).1 = ("v", None)
  ∧ (-1 < 0)%Z ∧ (7 ≤ 7)%Z
  ∧ (Get "k" 7 (Set_ "k" "v" (-1) 7 example_cache).2).1
    = (EmptyString, Some NotFound)
  ∧ (7 < 8)%Z
  ∧ (Get "k" 8 (Set_ "k" "v" 0 7 example_cache).2).1
    = (EmptyString, Some NotFound).
Proof.
  assert (Add 0 1000 < 1001)%Z as H1 by (unfold Add; lia).
  assert (1000 ≤ Add 0 1000)%Z as H2 by (unfold Add; lia).
  assert (-1 < 0)%Z as H3 by lia.
  assert (7 ≤ 7)%Z as H4 by lia.
  assert (7 < 8)%Z as H5 by lia.
  destruct (Set_then_Get_ttl "k" "v" 1000 0 1001 example_cache)
    as (Hlate & _ & _ & _).
  destruct (Set_then_Get_ttl "k" "v" 1000 0 1000 example_cache)
    as (_ & Hintime & _ & _).
  destruct (Set_then_Get_ttl "k" "v" (-1) 7 7 example_cache)
    as (_ & _ & Hneg & _).
  destruct (Set_then_Get_ttl "k" "v" 0 7 8 example_cache)
    as (_ & _ & _ & Hzero).
  split; [exact H1 |]. split; [exact (Hlate H1) |].
  split; [exact H2 |]. split; [exact (Hintime H2) |].
  split; [exact H3 |]. split; [exact H4 |]. split; [exact (Hneg H3 H4) |].
  split; [exact H5 | exact (Hzero eq_refl H5)].
Defined.

(** C6 on the example cache, which is full: overwriting "a" keeps "b". *)
Lemma overwrite_keeps_others_witness :
  consistent example_cache
  ∧ items example_cache !! "a" = Some (fresh_elem 0 "a" "1" 10 0)
  ∧ (clist.Len (eviction example_cache) ≤ capacity example_cache)%Z
  ∧ eviction (Set_ "a" "9" 30 5 example_cache).2
    = [fresh_elem 2 "a" "9" 30 5; fresh_elem 1 "b" "2" 20 1]
  ∧ items (Set_ "a" "9" 30 5 example_cache).2 !! "b"
    = items example_cache !! "b"
  ∧ size (items (Set_ "a" "9" 30 5 example_cache).2) = 2
  ∧ (Get "a" 35 (Set_ "a" "9" 30 5 example_cache).2).1 = ("9", None).
Proof.
  assert (clist.Len (eviction example_cache) ≤ capacity example_cache)%Z
    as Hfull by (vm_compute; discriminate).
  destruct (overwrite_keeps_others "a" (fresh_elem 0 "a" "1" 10 0) "9" 30 5
              example_cache consistent_example eq_refl Hfull)
    as (Hev & _ & _ & Hother & Hsize & Hget).
  split; [apply consistent_example |]. split; [reflexivity |].
  split; [exact Hfull |]. split; [rewrite Hev; reflexivity |].
  split; [by apply Hother |]. split; [rewrite Hsize; reflexivity |].
  apply Hget. unfold Add. lia.
Defined.

(** C9 at capacity 0: the second [Set] evicts the entry of the first. *)
Lemma nonpositive_capacity_Set_witness :
  (0 ≤ 0)%Z
  ∧ (Set_ "b" "2" 20 1 (run [(OpSet "a" "1" 10, 0%Z)] (New 0))).1 = None
  ∧ eviction (Set_ "b" "2" 20 1 (run [(OpSet "a" "1" 10, 0%Z)] (New 0))).2
    = [fresh_elem 1 "b" "2" 20 1]
  ∧ items (Set_ "b" "2" 20 1 (run [(OpSet "a" "1" 10, 0%Z)] (New 0))).2
    = {[ "b" := fresh_elem 1 "b" "2" 20 1 ]}
  ∧ evictLRU (New 0) = New 0.
Proof.
  assert (0 ≤ 0)%Z as Hcap by lia.
  destruct (nonpositive_capacity_Set 0 [(OpSet "a" "1" 10, 0%Z)]
              "b" "2" 20 1 Hcap) as (Herr & _ & Hev & Hit & Hnoop).
  split; [exact Hcap |]. split; [exact Herr |]. split; [exact Hev |].
  split; [exact Hit |]. by apply Hnoop.
Defined.

(** C2 at capacity 3: "a", "b", "c" stored, "c" and "b" read, "d" stored. *)
Lemma lru_evicts_unread_oldest_witness :
  NoDup (set_key <$> [("a", "1", 1000, 0); ("b", "2", 1000, 1);
                      ("c", "3", 1000, 2)]%Z)
  ∧ (100 ≤ Add 2 1000)%Z
  ∧ ("d" ∉ set_key <$> [("a", "1", 1000, 0); ("b", "2", 1000, 1);
                        ("c", "3", 1000, 2)]%Z)
  ∧ consistent example_cache
  ∧ dom (items (Set_ "d" "4" 1000 7
                  (run (set_calls [("a", "1", 1000, 0); ("b", "2", 1000, 1);
                                   ("c", "3", 1000, 2)]%Z
                        ++ get_calls [("c", 5); ("b", 6)]%Z)
                     (New 3))).2)
    = {[ "d" ]} ∪ list_to_set ["b"; "c"]
  ∧ eviction (evictLRU example_cache) = [fresh_elem 1 "b" "2" 20 1]
  ∧ size (items (evictLRU example_cache)) = 1.
Proof.
  assert (NoDup (set_key <$> [("a", "1", 1000, 0); ("b", "2", 1000, 1);
                              ("c", "3", 1000, 2)]%Z)) as Hnd
    by compute_done.
  assert ("d" ∉ set_key <$> [("a", "1", 1000, 0); ("b", "2", 1000, 1);
                             ("c", "3", 1000, 2)]%Z) as Hnew
    by compute_done.
  assert (Forall (λ s : string * string * Z * Z, (100 ≤ Add s.2 s.1.2)%Z)
            [("a", "1", 1000, 0); ("b", "2", 1000, 1);
             ("c", "3", 1000, 2)]%Z) as Httl
    by (repeat apply Forall_cons_2; [.. | apply Forall_nil_2];
        unfold Add; simpl; lia).
  assert (Forall (λ g : string * Z,
                    g.1 ∈ set_key <$> [("b", "2", 1000, 1);
                                       ("c", "3", 1000, 2)]%Z
                    ∧ (g.2 ≤ 100)%Z) [("c", 5); ("b", 6)]%Z) as Hgs.
  { repeat apply Forall_cons_2; [.. | apply Forall_nil_2];
      (split; [compute_done | simpl; lia]). }
  destruct (lru_evicts_unread_oldest 100 ("a", "1", 1000, 0)%Z
              [("b", "2", 1000, 1); ("c", "3", 1000, 2)]%Z
              [("c", 5); ("b", 6)]%Z "d" "4" 1000 7 example_cache
              [fresh_elem 1 "b" "2" 20 1] (fresh_elem 0 "a" "1" 10 0)
              Hnd Httl Hgs Hnew consistent_example eviction_example)
    as (_ & Hdom & _ & Hev & _ & Hsize).
  split; [exact Hnd |]. split; [unfold Add; lia |]. split; [exact Hnew |].
  split; [apply consistent_example |]. split; [exact Hdom |].
  split; [exact Hev |]. rewrite Hsize. reflexivity.
Defined.


(** * Further properties of the operations *)

(** ** States reachable from [New] *)

(** X1.  Whatever calls are made on a cache built by [New capacity], the
    cache reached is consistent and still has the capacity it was built
    with. *)
Theorem reachable_consistent cap calls :
  consistent (run calls (New cap)) ∧ capacity (run calls (New cap)) = cap.
Proof.
  destruct (settled_run cap calls (New cap) (settled_New cap)) as (Hc & Hcap & _).
  by split.
Qed.

Lemma run_consistent cap calls : consistent (run calls (New cap)).
Proof. apply (settled_run cap calls (New cap) (settled_New cap)). Qed.

Lemma run_snoc calls o now c :
  run (calls ++ [(o, now)]) c = exec o now (run calls c).
Proof. unfold run. by rewrite foldl_snoc. Qed.

Lemma lookup_drop k' e' c k e :
  items (drop k' e' c) !! k = Some e → items c !! k = Some e.
Proof. simpl. by intros [_ ?]%lookup_delete_Some. Qed.

Lemma lookup_Set_removeOld k' c k e :
  items (Set_removeOld k' c) !! k = Some e → items c !! k = Some e.
Proof.
  unfold Set_removeOld. destruct (items c !! k'); [apply lookup_drop | done].
Qed.

Lemma lookup_evictLRU c k e :
  items (evictLRU c) !! k = Some e → items c !! k = Some e.
Proof.
  unfold evictLRU. destruct (clist.Back (eviction c)); [apply lookup_drop | done].
Qed.

Lemma lookup_Set_evict c k e :
  items (Set_evict c) !! k = Some e → items c !! k = Some e.
Proof.
  unfold Set_evict. case_bool_decide; [apply lookup_evictLRU | done].
Qed.

Lemma lookup_Get k' now c k e :
  items (Get k' now c).2 !! k = Some e → items c !! k = Some e.
Proof.
  unfold Get. destruct (items c !! k') as [e'|]; [| done].
  destruct (After now (expiry e')); [apply lookup_drop | done].
Qed.

(** An entry found after a call was either just written by that call, a
    [Set] of its key, or was there before the call. *)
Lemma lookup_exec o now c k e :
  consistent c → items (exec o now c) !! k = Some e →
  match o with
  | OpSet k' v ttl =>
      if decide (k' = k)
      then value (clist.Value e) = {| Value := v; ExpiryTime := Add now ttl |}
      else items c !! k = Some e
  | _ => items c !! k = Some e
  end.
Proof.
  intros Hc. destruct o as [k' v ttl|k'|k'| |]; simpl exec.
  - simpl. case_decide as Hk.
    + subst k'. rewrite lookup_insert_eq. by intros [= <-].
    + rewrite lookup_insert_ne by done. intros He.
      by apply lookup_Set_removeOld with k', lookup_Set_evict.
  - apply lookup_Get.
  - rewrite Contains_state. apply lookup_Get.
  - simpl. by rewrite lookup_empty.
  - destruct (sweep_in_spec now (map_to_list (items c)) c)
      as (_ & _ & Hit & _); [done | done |].
    unfold evictExpiredItems. rewrite Hit.
    by intros [? _]%map_lookup_filter_Some.
Qed.

Lemma last_set_snoc k calls o now :
  last_set k (calls ++ [(o, now)])
  = match o with
    | OpSet k' v ttl =>
        if decide (k' = k) then Some (v, Add now ttl) else last_set k calls
    | _ => last_set k calls
    end.
Proof. unfold last_set. by rewrite foldl_snoc. Qed.

Lemma reachable_entry_is_last_set cap calls : ∀ k e,
  items (run calls (New cap)) !! k = Some e →
  ∃ v exp, last_set k calls = Some (v, exp)
           ∧ value (clist.Value e) = {| Value := v; ExpiryTime := exp |}.
Proof.
  induction calls as [|[o now] calls IH] using rev_ind; intros k e.
  { simpl. by rewrite lookup_empty. }
  rewrite run_snoc, last_set_snoc. intros He.
  apply lookup_exec in He; [| apply run_consistent].
  destruct o as [k' v ttl|k'|k'| |]; try by apply IH.
  case_decide; [by exists v, (Add now ttl) | by apply IH].
Qed.

(** X2.  On a cache built by [New] and used through any calls, a [Get]
    that succeeds returns the value given to the most recent [Set] of that
    key, and the clock reading of the [Get] is not after the expiry time
    that [Set] computed. *)
Theorem Get_returns_latest_Set cap calls k now v :
  (Get k now (run calls (New cap))).1 = (v, None) →
  ∃ exp, last_set k calls = Some (v, exp) ∧ (now ≤ exp)%Z.
Proof.
  unfold Get. destruct (items (run calls (New cap)) !! k) as [e|] eqn:Hk;
    [| by intros [=]].
  destruct (After now (expiry e)) eqn:Hexp; [by intros [=] |].
  simpl. intros [= <-].
  destruct (reachable_entry_is_last_set cap calls k e Hk) as (v & exp & Hlast & Hval).
  exists exp. rewrite Hval. split; [done |].
  apply After_not_expired in Hexp. unfold expired, expiry in Hexp.
  rewrite Hval in Hexp. simpl in Hexp. lia.
Qed.

(** X2 on two writes of "a": the read returns the second value. *)
Lemma Get_returns_latest_Set_witness :
  (Get "a" 5 (run [(OpSet "a" "1" 10, 0%Z); (OpSet "a" "2" 20, 1%Z)]
                (New 2))).1 = ("2", None)
  ∧ ∃ exp, last_set "a" [(OpSet "a" "1" 10, 0%Z); (OpSet "a" "2" 20, 1%Z)]
           = Some ("2", exp) ∧ (5 ≤ exp)%Z.
Proof.
  split; [reflexivity |].
  apply (Get_returns_latest_Set 2
           [(OpSet "a" "1" 10, 0%Z); (OpSet "a" "2" 20, 1%Z)] "a" 5 "2").
  reflexivity.
Defined.

(** ** The recency order after [Set] and after [Get] *)

Lemma order_Set_removeOld k c :
  consistent c → order (Set_removeOld k c) = filter (λ x, x ≠ k) (order c).
Proof.
  intros Hc. unfold Set_removeOld. destruct (items c !! k) as [e|] eqn:Hk.
  - by apply order_drop.
  - symmetry. apply filter_all_elem. intros x Hx ->.
    apply (lookup_order c k Hc) in Hx as [e He]. congruence.
Qed.

Lemma order_evictLRU c :
  consistent c → order (evictLRU c) = removelast (order c).
Proof.
  intros Hc. destruct (clist.Back (eviction c)) as [e|] eqn:Hback.
  - apply last_Some in Hback as [l Hev].
    destruct (evictLRU_exact c l e Hc Hev) as (Hev' & _).
    unfold order. rewrite Hev', Hev, fmap_snoc. by rewrite removelast_last.
  - apply last_None in Hback. rewrite evictLRU_empty by done.
    unfold order. by rewrite Hback.
Qed.

Lemma order_Set k v ttl now c :
  consistent c →
  order (Set_ k v ttl now c).2
  = k :: (if bool_decide
               (capacity c ≤ Z.of_nat (length (filter (λ x, x ≠ k) (order c))))%Z
          then removelast (filter (λ x, x ≠ k) (order c))
          else filter (λ x, x ≠ k) (order c)).
Proof.
  intros Hc. pose proof (consistent_Set_removeOld k c Hc) as Hc1.
  transitivity (k :: order (Set_evict (Set_removeOld k c))); [done |].
  f_equal. unfold Set_evict, clist.Len.
  rewrite capacity_Set_removeOld, <- (order_Set_removeOld k c Hc).
  replace (length (eviction (Set_removeOld k c)))
    with (length (order (Set_removeOld k c)))
    by (unfold order; apply length_fmap).
  case_bool_decide; [by apply order_evictLRU | done].
Qed.

(** X3.  [Set k] puts [k] at the front of the recency order, keeps the
    other keys in their relative order, and drops the last of them exactly
    when their number has reached the capacity.  So besides the old entry of
    [k] it removes at most one entry, and only the least recently used
    one. *)
Theorem Set_order k v ttl now c :
  consistent c →
  order (Set_ k v ttl now c).2
  = k :: (if bool_decide
               (capacity c ≤ Z.of_nat (length (filter (λ x, x ≠ k) (order c))))%Z
          then removelast (filter (λ x, x ≠ k) (order c))
          else filter (λ x, x ≠ k) (order c))
  ∧ (∀ k', k' ∈ order (Set_ k v ttl now c).2 → k' = k ∨ k' ∈ order c)
  ∧ (∀ k', k' ∈ order c → k' ≠ k → k' ∉ order (Set_ k v ttl now c).2 →
       last (filter (λ x, x ≠ k) (order c)) = Some k'
       ∧ (capacity c ≤ Z.of_nat (length (filter (λ x, x ≠ k) (order c))))%Z).
Proof.
  intros Hc. rewrite (order_Set k v ttl now c Hc).
  set (o := filter (λ x, x ≠ k) (order c)).
  assert (∀ x, x ∈ removelast o → x ∈ o) as Hsub.
  { intros x Hx. destruct (decide (o = [])) as [->|Hne]; [done |].
    rewrite (app_removelast_last x Hne), elem_of_app. by left. }
  split; [done |]. split.
  - intros k' [->|Hin]%elem_of_cons; [by left | right].
    case_bool_decide; [apply Hsub in Hin |];
      by apply list_elem_of_filter in Hin as [_ ?].
  - intros k' Hin Hne Hgone. rewrite not_elem_of_cons in Hgone.
    destruct Hgone as [_ Hgone].
    assert (k' ∈ o) as Ho by (by apply list_elem_of_filter).
    case_bool_decide as Hfull; [| done]. split; [| done].
    destruct (decide (o = [])) as [Hnil|Hnn].
    { rewrite Hnil in Ho. by apply elem_of_nil in Ho. }
    rewrite (app_removelast_last k' Hnn) in Ho |- *.
    rewrite last_snoc. apply elem_of_app in Ho as [Ho|Ho]; [done |].
    apply list_elem_of_singleton in Ho. by rewrite <- Ho.
Qed.

(** X3 on the example cache: storing "c" drops "a", the back, and only it. *)
Lemma Set_order_witness :
  consistent example_cache
  ∧ order (Set_ "c" "3" 30 2 example_cache).2 = ["c"; "b"]
  ∧ "a" ∈ order example_cache
  ∧ "a" ≠ "c"
  ∧ ("a" ∉ order (Set_ "c" "3" 30 2 example_cache).2)
  ∧ last (filter (λ x, x ≠ "c") (order example_cache)) = Some "a".
Proof.
  destruct (Set_order "c" "3" 30 2 example_cache consistent_example)
    as (Hord & _ & Hlost).
  assert ("a" ∈ order example_cache) as Hin by compute_done.
  assert ("a" ≠ "c") as Hne by done.
  assert ("a" ∉ order (Set_ "c" "3" 30 2 example_cache).2) as Hout
    by compute_done.
  split; [apply consistent_example |]. split; [rewrite Hord; reflexivity |].
  split; [exact Hin |]. split; [exact Hne |]. split; [exact Hout |].
  apply (Hlost "a" Hin Hne Hout).
Defined.

(** X4.  A [Get] that finds an unexpired entry moves its key to the front
    of the recency order, keeps the other keys in their relative order and
    leaves the index as it was; reading the same key again while it is
    unexpired gives the same value and changes nothing more. *)
Theorem Get_hit_promotes k now now' c e :
  consistent c → items c !! k = Some e →
  ¬ expired now e → ¬ expired now' e →
  (Get k now c).1 = (Value (value (clist.Value e)), None)
  ∧ order (Get k now c).2 = k :: filter (λ x, x ≠ k) (order c)
  ∧ items (Get k now c).2 = items c
  ∧ Get k now' (Get k now c).2 = Get k now c.
Proof.
  intros Hc Hk Hexp Hexp'.
  pose proof (order_Get_hit k now c e Hc Hk Hexp) as Hord.
  pose proof (consistent_Get k now c Hc) as Hc1.
  rewrite (Get_hit k now c e) in Hord, Hc1 |- * by done. simpl in *.
  split; [done |]. split; [done |]. split; [done |].
  rewrite (Get_hit k now' _ e) by done. simpl. do 2 f_equal.
  unfold clist.Remove at 1. rewrite filter_cons_False by tauto.
  fold (clist.Remove e (clist.Remove e (eviction c))).
  by rewrite (Remove_absent e (clist.Remove e (eviction c)))
    by apply Remove_gone.
Qed.

(** X4 on the example cache: "a" is read at times 5 and 7. *)
Lemma Get_hit_promotes_witness :
  consistent example_cache
  ∧ items example_cache !! "a" = Some (fresh_elem 0 "a" "1" 10 0)
  ∧ ¬ expired 5 (fresh_elem 0 "a" "1" 10 0)
  ∧ ¬ expired 7 (fresh_elem 0 "a" "1" 10 0)
  ∧ order example_cache = ["b"; "a"]
  ∧ order (Get "a" 5 example_cache).2 = ["a"; "b"]
  ∧ Get "a" 7 (Get "a" 5 example_cache).2 = Get "a" 5 example_cache.
Proof.
  assert (¬ expired 5 (fresh_elem 0 "a" "1" 10 0)) as H5
    by (unfold expired, expiry; simpl; unfold Add; lia).
  assert (¬ expired 7 (fresh_elem 0 "a" "1" 10 0)) as H7
    by (unfold expired, expiry; simpl; unfold Add; lia).
  destruct (Get_hit_promotes "a" 5 7 example_cache
              (fresh_elem 0 "a" "1" 10 0) consistent_example eq_refl H5 H7)
    as (_ & Hord & _ & Hagain).
  split; [apply consistent_example |]. split; [reflexivity |].
  split; [exact H5 |]. split; [exact H7 |]. split; [reflexivity |].
  split; [rewrite Hord; reflexivity | exact Hagain].
Defined.

(** X5.  When the capacity is at least 2, the key at the front of the
    recency order (the one last written or last read with success) is still
    in the cache after the next [Set], whatever key that [Set] stores. *)
Theorem most_recent_survives_Set k rest k' v ttl now c :
  consistent c → (2 ≤ capacity c)%Z → order c = k :: rest →
  k ∈ order (Set_ k' v ttl now c).2
  ∧ is_Some (items (Set_ k' v ttl now c).2 !! k).
Proof.
  intros Hc Hcap Hord.
  assert (k ∈ order (Set_ k' v ttl now c).2) as Hin.
  { rewrite (order_Set k' v ttl now c Hc), Hord.
    destruct (decide (k = k')) as [->|Hne]; [left |]. right.
    rewrite filter_cons_True by done.
    case_bool_decide as Hfull; [| left].
    simpl in Hfull. destruct (filter (λ x, x ≠ k') rest) as [|y r] eqn:Hf.
    - simpl in Hfull. lia.
    - simpl. left. }
  split; [done |].
  apply lookup_order; [by apply consistent_Set | done].
Qed.

(** X5 on the example cache, whose front key is "b". *)
Lemma most_recent_survives_Set_witness :
  consistent example_cache
  ∧ (2 ≤ capacity example_cache)%Z
  ∧ order example_cache = "b" :: ["a"]
  ∧ is_Some (items (Set_ "c" "3" 30 2 example_cache).2 !! "b").
Proof.
  assert (2 ≤ capacity example_cache)%Z as Hcap by (vm_compute; discriminate).
  split; [apply consistent_example |]. split; [exact Hcap |].
  split; [reflexivity |].
  apply (most_recent_survives_Set "b" ["a"] "c" "3" 30 2 example_cache
           consistent_example Hcap eq_refl).
Defined.

(** ** Sweeping *)

(** X6.  A sweep pass does not change what a later [Get] returns: for a
    [Get] whose clock reading is not before that of the pass, the value or
    error is the same with and without the pass. *)
Theorem sweep_transparent_to_Get k now t c :
  consistent c → (now ≤ t)%Z →
  (Get k t (evictExpiredItems now c)).1 = (Get k t c).1.
Proof.
  intros Hc Ht.
  destruct (sweep_in_spec now (map_to_list (items c)) c)
    as (_ & _ & Hit & _); [done | done |].
  unfold Get, evictExpiredItems. rewrite Hit, map_lookup_filter.
  destruct (items c !! k) as [e|] eqn:Hk; simpl; [| done].
  destruct (decide (expired now e)) as [Hexp|Hexp].
  - rewrite option_guard_False by tauto. simpl.
    assert (expired t e) as He by (unfold expired in *; lia).
    apply After_expired in He. by rewrite He.
  - rewrite option_guard_True by done. simpl.
    by destruct (After t (expiry e)).
Qed.

(** X6 on the example cache, swept at 15 and read at 16. *)
Lemma sweep_transparent_to_Get_witness :
  consistent example_cache ∧ (15 ≤ 16)%Z
  ∧ (Get "a" 16 (evictExpiredItems 15 example_cache)).1
    = (Get "a" 16 example_cache).1
  ∧ (Get "b" 16 (evictExpiredItems 15 example_cache)).1 = ("2", None).
Proof.
  assert (15 ≤ 16)%Z as Ht by lia.
  split; [apply consistent_example |]. split; [exact Ht |].
  split; [| rewrite (sweep_transparent_to_Get "b" 15 16 example_cache
                       consistent_example Ht); reflexivity].
  apply (sweep_transparent_to_Get "a" 15 16 example_cache
           consistent_example Ht).
Defined.

Lemma Cache_eq c c' :
  items c = items c' → eviction c = eviction c' →
  capacity c = capacity c' → heap c = heap c' → c = c'.
Proof. destruct c, c'. simpl. by intros -> -> -> ->. Qed.

(** X7.  The cache a sweep pass produces does not depend on the order in
    which the [range] loop visits the map. *)
Theorem sweep_order_irrelevant now vs c :
  consistent c → vs ≡ₚ map_to_list (items c) →
  evictExpiredItems_in vs now c = evictExpiredItems now c.
Proof.
  intros Hc Hvs.
  destruct (sweep_in_spec now vs c Hc Hvs) as (_ & Hev & Hit & Hcap & Hheap).
  destruct (sweep_in_spec now (map_to_list (items c)) c Hc)
    as (_ & Hev' & Hit' & Hcap' & Hheap'); [done |].
  apply Cache_eq; unfold evictExpiredItems; congruence.
Qed.

(** X7 on the example cache, visiting the map in reverse. *)
Lemma sweep_order_irrelevant_witness :
  consistent example_cache
  ∧ reverse (map_to_list (items example_cache))
    ≡ₚ map_to_list (items example_cache)
  ∧ evictExpiredItems_in (reverse (map_to_list (items example_cache)))
      15 example_cache
    = evictExpiredItems 15 example_cache.
Proof.
  assert (reverse (map_to_list (items example_cache))
          ≡ₚ map_to_list (items example_cache)) as Hperm
    by apply reverse_Permutation.
  split; [apply consistent_example |]. split; [exact Hperm |].
  apply (sweep_order_irrelevant 15 _ example_cache consistent_example Hperm).
Defined.

Lemma sweep_sweep t1 t2 c :
  consistent c →
  evictExpiredItems t2 (evictExpiredItems t1 c)
  = evictExpiredItems (Z.max t1 t2) c.
Proof.
  intros Hc.
  destruct (sweep_in_spec t1 (map_to_list (items c)) c Hc)
    as (Hc1 & Hev1 & Hit1 & Hcap1 & Hheap1); [done |].
  fold (evictExpiredItems t1 c) in *.
  destruct (sweep_in_spec t2 (map_to_list (items (evictExpiredItems t1 c)))
              (evictExpiredItems t1 c) Hc1)
    as (_ & Hev2 & Hit2 & Hcap2 & Hheap2); [done |].
  fold (evictExpiredItems t2 (evictExpiredItems t1 c)) in *.
  destruct (sweep_in_spec (Z.max t1 t2) (map_to_list (items c)) c Hc)
    as (_ & Hev & Hit & Hcap & Hheap); [done |].
  fold (evictExpiredItems (Z.max t1 t2) c) in *.
  apply Cache_eq; [| | congruence | congruence].
  - rewrite Hit2, Hit1, Hit, map_filter_filter.
    apply map_filter_ext. intros i x _. unfold expired. simpl. lia.
  - rewrite Hev2, Hev1, Hev, list_filter_filter.
    apply list_filter_iff. intros x. unfold expired. lia.
Qed.

Lemma passes_after_sweep rs : ∀ m c,
  consistent c →
  StartEvictionTicker_passes rs (evictExpiredItems m c)
  = evictExpiredItems (foldl Z.max m rs) c.
Proof.
  induction rs as [|r rs IH]; intros m c Hc; [done |].
  change (StartEvictionTicker_passes (r :: rs) (evictExpiredItems m c))
    with (StartEvictionTicker_passes rs
            (evictExpiredItems r (evictExpiredItems m c))).
  rewrite sweep_sweep by done. by rewrite IH.
Qed.

(** X8.  The passes of the ticker goroutine add up to one pass: running
    [evictExpiredItems] at the readings [r :: rs], one after the other,
    gives the cache that a single pass at the largest reading gives.  A pass
    repeated at the same or at an earlier reading therefore changes
    nothing. *)
Theorem ticker_passes_collapse r rs c :
  consistent c →
  StartEvictionTicker_passes (r :: rs) c
  = evictExpiredItems (foldl Z.max r rs) c
  ∧ (∀ t, (t ≤ r)%Z →
       evictExpiredItems t (evictExpiredItems r c) = evictExpiredItems r c).
Proof.
  intros Hc. split.
  - change (StartEvictionTicker_passes (r :: rs) c)
      with (StartEvictionTicker_passes rs (evictExpiredItems r c)).
    by apply passes_after_sweep.
  - intros t Ht. rewrite sweep_sweep by done. f_equal. lia.
Qed.

(** X8 on the example cache, with passes at 5, 15 and 12. *)
Lemma ticker_passes_collapse_witness :
  consistent example_cache
  ∧ StartEvictionTicker_passes [5; 15; 12]%Z example_cache
    = evictExpiredItems 15 example_cache
  ∧ (12 ≤ 15)%Z
  ∧ evictExpiredItems 12 (evictExpiredItems 15 example_cache)
    = evictExpiredItems 15 example_cache.
Proof.
  destruct (ticker_passes_collapse 5 [15; 12]%Z example_cache
              consistent_example) as (Hall & _).
  destruct (ticker_passes_collapse 15 [] example_cache consistent_example)
    as (_ & Hrep).
  assert (12 ≤ 15)%Z as Hle by lia.
  split; [apply consistent_example |]. split; [exact Hall |].
  split; [exact Hle | exact (Hrep 12%Z Hle)].
Defined.

(** ** Writes only *)

Lemma run_capacity cap calls : capacity (run calls (New cap)) = cap.
Proof. apply (settled_run cap calls (New cap) (settled_New cap)). Qed.

(** X9.  After [Set] calls on distinct keys and nothing else, a cache built
    by [New capacity] holds the most recently stored max(capacity, 1) keys,
    the latest at the front. *)
Theorem Sets_of_distinct_keys_keep_latest cap ss :
  NoDup (set_key <$> ss) →
  order (run (set_calls ss) (New cap))
  = take (Z.to_nat (Z.max cap 1)) (reverse (set_key <$> ss)).
Proof.
  induction ss as [|[[[k v] ttl] now] ss IH] using rev_ind; intros Hnd.
  { change (reverse (set_key <$> [])) with (@nil string).
    by rewrite take_nil. }
  rewrite fmap_app in Hnd. apply NoDup_app in Hnd as (Hnd & Hnew & _).
  unfold set_calls. rewrite fmap_app. fold (set_calls ss).
  change ((λ s : string * string * Z * Z, (OpSet s.1.1.1 s.1.1.2 s.1.2, s.2))
            <$> [(k, v, ttl, now)]) with [(OpSet k v ttl, now)].
  rewrite run_snoc.
  change (exec (OpSet k v ttl) now (run (set_calls ss) (New cap)))
    with (Set_ k v ttl now (run (set_calls ss) (New cap))).2.
  rewrite order_Set by apply run_consistent.
  rewrite run_capacity, (IH Hnd), fmap_app, reverse_app. simpl.
  set (L := reverse (set_key <$> ss)).
  destruct (Z.to_nat (Z.max cap 1)) as [|n] eqn:Hn; [lia |].
  simpl. f_equal.
  assert (filter (λ x, x ≠ k) (take (S n) L) = take (S n) L) as ->.
  { apply filter_all_elem. intros x Hx%subseteq_take ->.
    unfold L in Hx. rewrite elem_of_reverse in Hx. apply (Hnew _ Hx). left. }
  pose proof (length_take L (S n)) as Hlen.
  case_bool_decide as Hfull.
  - destruct (decide (n < length L)) as [Hlt|Hge].
    + by apply removelast_firstn.
    + assert (L = []) as -> by (apply length_zero_iff_nil; lia).
      by rewrite !take_nil.
  - rewrite !take_ge by lia. done.
Qed.

(** X9 at capacity 2 with three writes. *)
Lemma Sets_of_distinct_keys_keep_latest_witness :
  NoDup (set_key <$> [("a", "1", 10, 0); ("b", "2", 10, 1);
                      ("c", "3", 10, 2)]%Z)
  ∧ order (run (set_calls [("a", "1", 10, 0); ("b", "2", 10, 1);
                           ("c", "3", 10, 2)]%Z) (New 2))
    = ["c"; "b"].
Proof.
  assert (NoDup (set_key <$> [("a", "1", 10, 0); ("b", "2", 10, 1);
                              ("c", "3", 10, 2)]%Z)) as Hnd by compute_done.
  split; [exact Hnd |].
  rewrite (Sets_of_distinct_keys_keep_latest 2 _ Hnd). reflexivity.
Defined.

(** ** Calls that hold the mutex *)

Lemma schedule_finished s : ∀ c held m,
  schedule s (mkMachine c held [[]; []]) = Some m → shared m = c.
Proof.
  destruct s as [|[|[|g]] s]; intros c held m Hs; simpl in Hs;
    [by injection Hs as <- | done ..].
Qed.

(** Goroutine 1 holds the mutex and goroutine 0 has returned. *)
Lemma schedule_rest_1 fs : ∀ s c m,
  schedule s (mkMachine c (Some 1) [[]; (Touch <$> fs) ++ [Unlock]]) = Some m →
  goroutines m = [[]; []] → shared m = run_all fs c.
Proof.
  induction fs as [|f fs IH]; intros [|[|[|g]] s] c m Hs Hdone; simpl in Hs;
    try done; try (by injection Hs as <-).
  - by apply schedule_finished in Hs.
  - by apply IH in Hs.
Qed.

Lemma schedule_solo_1 fs s c m :
  schedule s (mkMachine c None [[]; critical fs]) = Some m →
  goroutines m = [[]; []] → shared m = run_all fs c.
Proof.
  destruct s as [|[|[|g]] s]; intros Hs Hdone; simpl in Hs;
    try done; try (by injection Hs as <-).
  by apply schedule_rest_1 in Hs.
Qed.

(** Goroutine 0 holds the mutex and goroutine 1 has returned. *)
Lemma schedule_rest_0 fs : ∀ s c m,
  schedule s (mkMachine c (Some 0) [(Touch <$> fs) ++ [Unlock]; []]) = Some m →
  goroutines m = [[]; []] → shared m = run_all fs c.
Proof.
  induction fs as [|f fs IH]; intros [|[|[|g]] s] c m Hs Hdone; simpl in Hs;
    try done; try (by injection Hs as <-).
  - by apply schedule_finished in Hs.
  - by apply IH in Hs.
Qed.

Lemma schedule_solo_0 fs s c m :
  schedule s (mkMachine c None [critical fs; []]) = Some m →
  goroutines m = [[]; []] → shared m = run_all fs c.
Proof.
  destruct s as [|[|[|g]] s]; intros Hs Hdone; simpl in Hs;
    try done; try (by injection Hs as <-).
  by apply schedule_rest_0 in Hs.
Qed.

(** Goroutine 0 holds the mutex while goroutine 1 has not started. *)
Lemma schedule_first_0 fs0 fs1 : ∀ s c m,
  schedule s (mkMachine c (Some 0)
                [(Touch <$> fs0) ++ [Unlock]; critical fs1]) = Some m →
  goroutines m = [[]; []] → shared m = run_all fs1 (run_all fs0 c).
Proof.
  induction fs0 as [|f fs0 IH]; intros [|[|[|g]] s] c m Hs Hdone;
    simpl in Hs; try done; try (by injection Hs as <-).
  - by apply schedule_solo_1 in Hs.
  - by apply IH in Hs.
Qed.

Lemma schedule_first_1 fs0 fs1 : ∀ s c m,
  schedule s (mkMachine c (Some 1)
                [critical fs0; (Touch <$> fs1) ++ [Unlock]]) = Some m →
  goroutines m = [[]; []] → shared m = run_all fs0 (run_all fs1 c).
Proof.
  induction fs1 as [|f fs1 IH]; intros [|[|[|g]] s] c m Hs Hdone;
    simpl in Hs; try done; try (by injection Hs as <-).
  - by apply schedule_solo_0 in Hs.
  - by apply IH in Hs.
Qed.

Lemma critical_serialize fs0 fs1 s c m :
  schedule s (mkMachine c None [critical fs0; critical fs1]) = Some m →
  goroutines m = [[]; []] →
  shared m = run_all fs1 (run_all fs0 c)
  ∨ shared m = run_all fs0 (run_all fs1 c).
Proof.
  destruct s as [|[|[|g]] s]; intros Hs Hdone; simpl in Hs;
    try done; try (by injection Hs as <-).
  - left. by apply schedule_first_0 in Hs.
  - right. by apply schedule_first_1 in Hs.
Qed.

(** Every call but [Flush] is a critical section around its statement
    groups. *)
Lemma op_actions_critical o now :
  o ≠ OpFlush →
  ∃ fs, op_actions o now = critical fs ∧ ∀ c, run_all fs c = exec o now c.
Proof.
  intros Ho. destruct o as [k v ttl|k|k| |]; [.. | done |].
  - by exists [Set_removeOld k; Set_evict; Set_insert k v ttl now].
  - by exists [λ c, (Get k now c).2].
  - exists [λ c, (Get k now c).2]. split; [done |].
    intros c. simpl. by rewrite Contains_state.
  - by exists [evictExpiredItems now].
Qed.

(** X10.  Two calls other than [Flush] made by two goroutines exclude each
    other: however their lock operations and statement groups are
    interleaved, once both have returned the cache is the one that running
    the two calls one after the other, in one of the two orders, gives. *)
Theorem locked_calls_serialize o1 t1 o2 t2 s c m :
  o1 ≠ OpFlush → o2 ≠ OpFlush →
  schedule s (mkMachine c None [op_actions o1 t1; op_actions o2 t2]) = Some m →
  goroutines m = [[]; []] →
  shared m = exec o2 t2 (exec o1 t1 c) ∨ shared m = exec o1 t1 (exec o2 t2 c).
Proof.
  intros Ho1 Ho2.
  destruct (op_actions_critical o1 t1 Ho1) as (fs1 & -> & Hrun1).
  destruct (op_actions_critical o2 t2 Ho2) as (fs2 & -> & Hrun2).
  intros Hs Hdone.
  destruct (critical_serialize fs1 fs2 s c m Hs Hdone) as [-> | ->];
    [left | right]; by rewrite !Hrun1, !Hrun2 || rewrite !Hrun2, !Hrun1.
Qed.

(** X10 on the example cache: a [Set] of "c" and a [Get] of "a", the [Get]
    taking the mutex first. *)
Lemma locked_calls_serialize_witness :
  OpSet "c" "3" 30 ≠ OpFlush
  ∧ OpGet "a" ≠ OpFlush
  ∧ schedule [1; 1; 0; 1; 0; 0; 0; 0]
      (mkMachine example_cache None
         [op_actions (OpSet "c" "3" 30) 2; op_actions (OpGet "a") 3])
    = None
  ∧ schedule [1; 1; 1; 0; 0; 0; 0; 0]
      (mkMachine example_cache None
         [op_actions (OpSet "c" "3" 30) 2; op_actions (OpGet "a") 3])
    = Some (mkMachine
              (exec (OpSet "c" "3" 30) 2 (exec (OpGet "a") 3 example_cache))
              None [[]; []])
  ∧ (exec (OpSet "c" "3" 30) 2 (exec (OpGet "a") 3 example_cache)
     = exec (OpGet "a") 3 (exec (OpSet "c" "3" 30) 2 example_cache)
     ∨ exec (OpSet "c" "3" 30) 2 (exec (OpGet "a") 3 example_cache)
       = exec (OpSet "c" "3" 30) 2 (exec (OpGet "a") 3 example_cache)).
Proof.
  assert (OpSet "c" "3" 30 ≠ OpFlush) as H1 by done.
  assert (OpGet "a" ≠ OpFlush) as H2 by done.
  assert (schedule [1; 1; 1; 0; 0; 0; 0; 0]
            (mkMachine example_cache None
               [op_actions (OpSet "c" "3" 30) 2; op_actions (OpGet "a") 3])
          = Some (mkMachine
                    (exec (OpSet "c" "3" 30) 2
                       (exec (OpGet "a") 3 example_cache))
                    None [[]; []])) as Hs by reflexivity.
  split; [exact H1 |]. split; [exact H2 |]. split; [reflexivity |].
  split; [exact Hs |].
  apply (locked_calls_serialize (OpSet "c" "3" 30) 2 (OpGet "a") 3
           [1; 1; 1; 0; 0; 0; 0; 0] example_cache _ H1 H2 Hs eq_refl).
Defined.

(** ** Behaviour as a function of the entries *)

Lemma order_entries c : order c = key <$> entries c.
Proof. unfold order, entries. by rewrite <- list_fmap_compose. Qed.

Lemma fmap_filter_through {A B} (f : A → B) (P : A → Prop) (Q : B → Prop)
    `{!∀ x, Decision (P x), !∀ y, Decision (Q y)} (l : list A) :
  (∀ x, P x ↔ Q (f x)) → f <$> filter P l = filter Q (f <$> l).
Proof.
  intros HPQ. induction l as [|x l IH]; [done |]. rewrite fmap_cons.
  destruct (decide (P x)) as [HP|HP].
  - rewrite !filter_cons_True by (done || by apply HPQ).
    by rewrite fmap_cons, IH.
  - rewrite !filter_cons_False by (done || by rewrite <- HPQ). done.
Qed.

Lemma entries_drop c k e :
  consistent c → items c !! k = Some e →
  entries (drop k e c) = filter (λ x, key x ≠ k) (entries c).
Proof.
  intros Hc Hk. unfold entries. simpl. rewrite (Remove_by_key c k e) by done.
  by apply fmap_filter_through.
Qed.

Lemma entries_Set_removeOld k c :
  consistent c →
  entries (Set_removeOld k c) = filter (λ x, key x ≠ k) (entries c).
Proof.
  intros Hc. unfold Set_removeOld. destruct (items c !! k) as [e|] eqn:Hk.
  - by apply entries_drop.
  - symmetry. apply filter_all_elem. intros x Hx Hkey.
    assert (k ∈ order c) as Hin.
    { rewrite order_entries, <- Hkey. by apply list_elem_of_fmap_2. }
    apply (lookup_order c k Hc) in Hin as [e He]. congruence.
Qed.

Lemma entries_evictLRU c :
  consistent c → entries (evictLRU c) = removelast (entries c).
Proof.
  intros Hc. destruct (clist.Back (eviction c)) as [e|] eqn:Hback.
  - apply last_Some in Hback as [l Hev].
    destruct (evictLRU_exact c l e Hc Hev) as (Hev' & _).
    unfold entries. rewrite Hev', Hev, fmap_snoc. by rewrite removelast_last.
  - apply last_None in Hback. rewrite evictLRU_empty by done.
    unfold entries. by rewrite Hback.
Qed.

Lemma entries_Set k v ttl now c :
  consistent c →
  entries (Set_ k v ttl now c).2
  = {| key := k; value := {| Value := v; ExpiryTime := Add now ttl |} |}
    :: (if bool_decide
             (capacity c
              ≤ Z.of_nat (length (filter (λ x, key x ≠ k) (entries c))))%Z
        then removelast (filter (λ x, key x ≠ k) (entries c))
        else filter (λ x, key x ≠ k) (entries c)).
Proof.
  intros Hc. pose proof (consistent_Set_removeOld k c Hc) as Hc1.
  transitivity
    ({| key := k; value := {| Value := v; ExpiryTime := Add now ttl |} |}
     :: entries (Set_evict (Set_removeOld k c))); [done |].
  f_equal. unfold Set_evict, clist.Len.
  rewrite capacity_Set_removeOld, <- (entries_Set_removeOld k c Hc).
  replace (length (eviction (Set_removeOld k c)))
    with (length (entries (Set_removeOld k c)))
    by (unfold entries; apply length_fmap).
  case_bool_decide; [by apply entries_evictLRU | done].
Qed.

Lemma Get_by_entry k now c :
  consistent c →
  (Get k now c).1
  = match clist.Value <$> items c !! k with
    | None => (EmptyString, Some NotFound)
    | Some x =>
        if After now (ExpiryTime (value x))
        then (EmptyString, Some NotFound)
        else (Value (value x), None)
    end
  ∧ entries (Get k now c).2
    = match clist.Value <$> items c !! k with
      | None => entries c
      | Some x =>
          if After now (ExpiryTime (value x))
          then filter (λ y, key y ≠ k) (entries c)
          else x :: filter (λ y, key y ≠ k) (entries c)
      end.
Proof.
  intros Hc. unfold Get. destruct (items c !! k) as [e|] eqn:Hk; [| done].
  simpl. fold (expiry e).
  destruct (After now (expiry e)) eqn:Hexp; simpl.
  - split; [done |]. by apply entries_drop.
  - split; [done |]. destruct (cons_index c Hc k e Hk) as [He _].
    rewrite MoveToFront_present by done.
    transitivity (clist.Value e :: entries (drop k e c)); [done |].
    by rewrite entries_drop.
Qed.

Lemma entries_sweep now c :
  consistent c →
  entries (evictExpiredItems now c)
  = filter (λ x, ¬ (ExpiryTime (value x) < now)%Z) (entries c).
Proof.
  intros Hc.
  destruct (sweep_in_spec now (map_to_list (items c)) c Hc)
    as (_ & Hev & _); [done |].
  unfold entries, evictExpiredItems. rewrite Hev.
  by apply fmap_filter_through.
Qed.

Lemma similar_lookup c c' k :
  similar c c' →
  clist.Value <$> items c !! k = clist.Value <$> items c' !! k.
Proof.
  assert (∀ c c' e, similar c c' → items c !! k = Some e →
            ∃ e', items c' !! k = Some e' ∧ clist.Value e' = clist.Value e)
    as Hstep.
  { clear. intros c c' e (Hc & Hc' & Hent & _) Hk.
    destruct (cons_index c Hc k e Hk) as [He Hkey].
    assert (clist.Value e ∈ entries c') as Hin.
    { rewrite <- Hent. by apply list_elem_of_fmap_2. }
    apply list_elem_of_fmap in Hin as (e' & Hval & He').
    exists e'. split; [| done].
    rewrite <- Hkey, Hval. by apply (cons_order c' Hc'). }
  intros Hsim. assert (similar c' c) as Hsim'.
  { destruct Hsim as (H1 & H2 & H3 & H4).
    split; [done |]. split; [done |]. by split. }
  destruct (items c !! k) as [e|] eqn:Hk.
  - destruct (Hstep c c' e Hsim Hk) as (e' & -> & Hv). simpl. by rewrite Hv.
  - destruct (items c' !! k) as [e'|] eqn:Hk'; [| done].
    destruct (Hstep c' c e' Hsim' Hk') as (e & He & _). congruence.
Qed.

Lemma similar_exec o now c c' :
  similar c c' →
  respond o now c = respond o now c'
  ∧ similar (exec o now c) (exec o now c').
Proof.
  intros Hsim. pose proof Hsim as (Hc & Hc' & Hent & Hcap).
  destruct o as [k v ttl|k|k| |]; cbn [respond exec].
  - split; [done |]. split; [by apply consistent_Set |].
    split; [by apply consistent_Set |]. split.
    + rewrite !entries_Set by done. by rewrite Hent, Hcap.
    + simpl. by rewrite !capacity_Set_evict, !capacity_Set_removeOld.
  - destruct (Get_by_entry k now c Hc) as [Hr He].
    destruct (Get_by_entry k now c' Hc') as [Hr' He'].
    rewrite Hr, Hr', (similar_lookup c c' k Hsim). split; [done |].
    split; [by apply consistent_Get |]. split; [by apply consistent_Get |].
    split; [| by rewrite !capacity_Get].
    by rewrite He, He', (similar_lookup c c' k Hsim), Hent.
  - destruct (Get_by_entry k now c Hc) as [Hr He].
    destruct (Get_by_entry k now c' Hc') as [Hr' He'].
    rewrite !Contains_state. split.
    + unfold Contains.
      destruct (Get k now c) as [[s err] c1], (Get k now c') as [[s' err'] c1'].
      simpl in Hr, Hr'. rewrite (similar_lookup c c' k Hsim) in Hr.
      rewrite <- Hr' in Hr. by injection Hr as -> ->.
    + split; [by apply consistent_Get |]. split; [by apply consistent_Get |].
      split; [| by rewrite !capacity_Get].
      by rewrite He, He', (similar_lookup c c' k Hsim), Hent.
  - split; [done |]. split; [apply consistent_Flush |].
    split; [apply consistent_Flush |]. by split.
  - split; [done |].
    split; [by apply consistent_evictExpiredItems |].
    split; [by apply consistent_evictExpiredItems |]. split.
    + by rewrite !entries_sweep, Hent.
    + destruct (sweep_in_spec now (map_to_list (items c)) c Hc)
        as (_ & _ & _ & Hcap1 & _); [done |].
      destruct (sweep_in_spec now (map_to_list (items c')) c' Hc')
        as (_ & _ & _ & Hcap2 & _); [done |].
      unfold evictExpiredItems. congruence.
Qed.

Lemma similar_run calls : ∀ c c',
  similar c c' →
  replies calls c = replies calls c' ∧ similar (run calls c) (run calls c').
Proof.
  induction calls as [|[o now] calls IH]; intros c c' Hsim; [done |].
  destruct (similar_exec o now c c' Hsim) as [Hr Hsim'].
  destruct (IH _ _ Hsim') as [Hrs Hfin].
  split; [| done]. simpl. by rewrite Hr, Hrs.
Qed.

(** X11.  What the calls return, and the entries the cache ends up with,
    are determined by the entries of the cache in recency order and by its
    capacity: two consistent caches that agree on these answer every
    sequence of calls in the same way, whatever list elements carry their
    entries. *)
Theorem behaviour_from_entries calls c c' :
  consistent c → consistent c' →
  entries c = entries c' → capacity c = capacity c' →
  replies calls c = replies calls c'
  ∧ entries (run calls c) = entries (run calls c')
  ∧ capacity (run calls c) = capacity (run calls c').
Proof.
  intros Hc Hc' Hent Hcap.
  destruct (similar_run calls c c') as (Hr & _ & _ & He & Hcap').
  { split; [done |]. split; [done |]. by split. }
  split; [done |]. by split.
Qed.

(** X12.  After [Flush], whatever state the cache was in, it answers every
    sequence of calls as a cache just built by [New] with the same capacity
    does, and ends up with the same entries; [Flush] itself returns no
    error. *)
Theorem Flush_gives_fresh_cache calls c :
  (Flush c).1 = None
  ∧ replies calls (Flush c).2 = replies calls (New (capacity c))
  ∧ entries (run calls (Flush c).2) = entries (run calls (New (capacity c))).
Proof.
  split; [done |].
  destruct (similar_run calls (Flush c).2 (New (capacity c)))
    as (Hr & _ & _ & He & _); [| done].
  split; [apply consistent_Flush |]. split; [apply consistent_New |]. done.
Qed.

Lemma consistent_example_later : consistent example_cache_later.
Proof. apply consistent_Set, consistent_Set, consistent_Flush. Qed.

(** X11 on two caches holding "b" and "a" in list elements of different
    addresses. *)
Lemma behaviour_from_entries_witness :
  consistent example_cache
  ∧ consistent example_cache_later
  ∧ entries example_cache = entries example_cache_later
  ∧ capacity example_cache = capacity example_cache_later
  ∧ eviction example_cache ≠ eviction example_cache_later
  ∧ replies [(OpGet "a", 5%Z); (OpSet "c" "3" 30, 6%Z); (OpContains "b", 7%Z)]
      example_cache
    = replies [(OpGet "a", 5%Z); (OpSet "c" "3" 30, 6%Z); (OpContains "b", 7%Z)]
        example_cache_later.
Proof.
  destruct (behaviour_from_entries
              [(OpGet "a", 5%Z); (OpSet "c" "3" 30, 6%Z); (OpContains "b", 7%Z)]
              example_cache example_cache_later
              consistent_example consistent_example_later eq_refl eq_refl)
    as (Hr & _ & _).
  split; [apply consistent_example |].
  split; [apply consistent_example_later |].
  split; [reflexivity |]. split; [reflexivity |].
  split; [discriminate | exact Hr].
Defined.
